(** * Garden sunlight mapper: exposure aggregation and placement search

    A shallow embedding of the p5.js sketches of the repository and the
    properties of the aggregation loop [generateHeatMap], of the rectangle
    score [calculateRectangleScore] and of the hill-climbing block of
    [draw].  The sketch exists in four variants; the aggregation loop is
    the same in all of them, the last one runs it as an [async] function
    and adds the hill-climbing search.

    Numbers.  JavaScript numbers are IEEE 754 binary64.  The aggregator
    multiplies bytes by 0.299, 0.587 and 0.114, none of which is a binary
    fraction, compares the sum with the threshold and rounds a rescaled
    count into a byte; the outcome of the comparison and of the rounding
    depends on the binary64 results, so this part is modelled bit for bit
    with the operations of [SpecFloat] at precision 53.  The placement code
    only halves, adds, compares and floors coordinates and adds bytes; its
    numbers are modelled as exact rationals and integers.

    Arrays.  The [pixels] of a [p5.Image] is a [Uint8ClampedArray]: a list
    of integers, read with [undefined] out of range and written with the
    clamping conversion of ECMAScript, a store out of range being
    ignored. *)

From Stdlib Require Import ZArith QArith Qround Lqa List Lia Bool.
From Stdlib Require Import Floats.SpecFloat.
From stdpp Require Import base list.

Local Open Scope Z_scope.

(** * The program *)

(** ** JavaScript numbers *)

Module Num.

Definition prec : Z := 53.
Definition emax : Z := 1024.

Definition number := spec_float.

(** An integer as a number (exact below 2^53). *)
Definition of_Z (z : Z) : number := binary_normalize prec emax z 0 false.

Definition add : number -> number -> number := SFadd prec emax.
Definition sub : number -> number -> number := SFsub prec emax.
Definition mul : number -> number -> number := SFmul prec emax.
Definition div : number -> number -> number := SFdiv prec emax.

(** [a > b] and [a <= b] of JavaScript: false as soon as one side is
    NaN. *)
Definition gt (a b : number) : bool := SFltb b a.
Definition le (a b : number) : bool := SFleb a b.

(** The decimal literals of the brightness formula, each the binary64
    value nearest to the decimal: 0x1.322d0e5604189p-2,
    0x1.2c8b439581062p-1 and 0x1.d2f1a9fbe76c9p-4. *)
Definition lit_0_299 : number := S754_finite false 5386305154335113 (-54).
Definition lit_0_587 : number := S754_finite false 5287225962532962 (-53).
Definition lit_0_114 : number := S754_finite false 8214565720323785 (-56).

(** [ToNumber] on what an array read returns: an element or [undefined]. *)
Definition ToNumber (v : option Z) : number :=
  match v with
  | Some z => of_Z z
  | None => S754_nan
  end.

(** The integer nearest to [m * 2^e], for [e < 0], ties to the even
    one. *)
Definition round_half_even (m : Z) (e : Z) : Z :=
  let d := 2 ^ (- e) in
  let q := m / d in
  let r := m mod d in
  match 2 * r ?= d with
  | Lt => q
  | Gt => q + 1
  | Eq => if Z.even q then q else q + 1
  end.

(** [ToUint8Clamp] of ECMAScript, the conversion applied by a store into
    a [Uint8ClampedArray]: NaN gives 0, the value is clamped to
    [0, 255] and rounded to the nearest integer, ties to even. *)
Definition ToUint8Clamp (f : number) : Z :=
  match f with
  | S754_nan => 0
  | S754_zero _ => 0
  | S754_infinity s => if s then 0 else 255
  | S754_finite true _ _ => 0
  | S754_finite false m e =>
      if 0 <=? e then Z.min 255 (Z.pos m * 2 ^ e)
      else Z.min 255 (round_half_even (Z.pos m) e)
  end.

End Num.

(** ** p5.js *)

(** [map(n, start1, stop1, start2, stop2)] of p5.js, without the optional
    clamping argument:
    [(n - start1) / (stop1 - start1) * (stop2 - start2) + start2]. *)
Definition p5_map (n start1 stop1 start2 stop2 : Num.number) : Num.number :=
  Num.add
    (Num.mul (Num.div (Num.sub n start1) (Num.sub stop1 start1))
             (Num.sub stop2 start2))
    start2.

(** A [p5.Image] after [loadPixels]: its size and its RGBA bytes, row
    after row. *)
Record p5Image := mkImage {
  img_width : nat;
  img_height : nat;
  img_pixels : list Z
}.

(** The pixel array of [createImage(w, h)]: transparent black. *)
Definition createImage (w h : nat) : list Z := replicate (w * h * 4) 0.

(** ** The exposure aggregator *)

Definition totalImages : nat := 90.

(** [let sunValue = map(sunnyCount, 0, totalImages, 0, 255)]. *)
Definition sunValue (sunnyCount : nat) : Num.number :=
  p5_map (Num.of_Z (Z.of_nat sunnyCount))
         (Num.of_Z 0) (Num.of_Z (Z.of_nat totalImages))
         (Num.of_Z 0) (Num.of_Z 255).

Section Aggregator.

(** The globals [images], [width], [height] and [threshold]. *)
Variable images : list p5Image.
Variable width height : nat.
Variable threshold : Num.number.

(** Body of the loop over the images: the brightness of pixel (x, y) of
    one image, read at the row length of that image. *)
Definition brightness (img : p5Image) (x y : nat) : Num.number :=
  let imgIndex := ((x + y * img_width img) * 4)%nat in
  let r := img_pixels img !! imgIndex in
  let g := img_pixels img !! (imgIndex + 1)%nat in
  let b := img_pixels img !! (imgIndex + 2)%nat in
  Num.add
    (Num.add (Num.mul Num.lit_0_299 (Num.ToNumber r))
             (Num.mul Num.lit_0_587 (Num.ToNumber g)))
    (Num.mul Num.lit_0_114 (Num.ToNumber b)).

(** [brightness > threshold]. *)
Definition sunny (img : p5Image) (x y : nat) : bool :=
  Num.gt (brightness img x y) threshold.

(** The loop over the images, counting into [sunnyCount]. *)
Definition sunnyCount (x y : nat) : nat :=
  fold_left (fun count img => if sunny img x y then S count else count)
            images 0%nat.

(** Body of the loop over [y]: the four stores for pixel (x, y). *)
Definition heatPixel (x : nat) (pixels : list Z) (y : nat) : list Z :=
  let index := ((x + y * width) * 4)%nat in
  let v := sunValue (sunnyCount x y) in
  <[(index + 3)%nat := Num.ToUint8Clamp (Num.of_Z 255)]>
    (<[(index + 2)%nat := Num.ToUint8Clamp v]>
       (<[(index + 1)%nat := Num.ToUint8Clamp v]>
          (<[index := Num.ToUint8Clamp v]> pixels))).

(** Body of the loop over [x]: one column. *)
Definition heatColumn (pixels : list Z) (x : nat) : list Z :=
  fold_left (heatPixel x) (seq 0 height) pixels.

(** [generateHeatMap] of src/sketch.js, on the pixel array of [heatMap]:
    every column in one go. *)
Definition generateHeatMap (pixels : list Z) : list Z :=
  fold_left heatColumn (seq 0 width) pixels.

(** *** The asynchronous variant *)

(** The state of the [async generateHeatMap] at an [await]: the next
    column and the pixel array so far; or its completion. *)
Inductive asyncHeatMap :=
| Suspended (x : nat) (pixels : list Z)
| Completed (pixels : list Z).

(** The loop over [x] from its test, for the [remaining] columns, up to
    the next [await]: the function yields after column [x] when
    [x % 20 === 0]. *)
Fixpoint asyncColumns (remaining x : nat) (pixels : list Z) : asyncHeatMap :=
  match remaining with
  | O => Completed pixels
  | S remaining' =>
      let pixels' := heatColumn pixels x in
      if (x mod 20 =? 0)%nat then Suspended (S x) pixels'
      else asyncColumns remaining' (S x) pixels'
  end.

(** The call of the [async] function: it runs to its first [await]. *)
Definition generateHeatMapAsync (pixels : list Z) : asyncHeatMap :=
  asyncColumns width 0 pixels.

(** The timer callback that resumes the function after an [await]. *)
Definition resume (a : asyncHeatMap) : asyncHeatMap :=
  match a with
  | Suspended x pixels => asyncColumns (width - x) x pixels
  | Completed _ => a
  end.

(** The event loop running up to [turns] timer callbacks; the pixel array
    when the function has completed by then. *)
Fixpoint eventLoop (turns : nat) (a : asyncHeatMap) : option (list Z) :=
  match a with
  | Completed pixels => Some pixels
  | Suspended _ _ =>
      match turns with
      | O => None
      | S turns' => eventLoop turns' (resume a)
      end
  end.

End Aggregator.

(** What runs when the last image has loaded: the canvas takes the size of
    the first image, the heat map is created at that size and filled.
    The result is the width, the height and the pixel array of the heat
    map; without a first image there is no heat map. *)
Definition imagesLoaded (images : list p5Image) (threshold : Num.number)
    : option (nat * nat * list Z) :=
  match images with
  | img0 :: _ =>
      let width := img_width img0 in
      let height := img_height img0 in
      Some (width, height,
            generateHeatMap images width height threshold
                            (createImage width height))
  | [] => None
  end.

(** The grey level of cell (x, y) of a heat map of the given width, as
    [calculateRectangleScore] and [displayHoverInfo] read it. *)
Definition cell (pixels : list Z) (width x y : nat) : option Z :=
  pixels !! ((x + y * width) * 4)%nat.

(** ** Placement search *)

Definition Qltb (a b : Q) : bool := negb (Qle_bool b a).

(** The object literal [{x, y, w, h, score, searching}]. *)
Record rect := mkRect {
  r_x : Q;
  r_y : Q;
  r_w : Q;
  r_h : Q;
  r_score : Z;
  r_searching : bool
}.

(** The globals of the sketch that the placement code reads and writes;
    [heatMap] is the pixel array of the heat map once it is defined. *)
Record sketch := mkSketch {
  width : nat;
  height : nat;
  heatMap : option (list Z);
  isLoading : bool;
  rectWidth : Q;
  rectHeight : Q;
  mouseX : Q;
  mouseY : Q;
  movingRectangle : option rect;
  permanentRectangles : list rect
}.

(** Assignment to [movingRectangle] and [permanentRectangles]. *)
Definition setRectangles (s : sketch) (moving : option rect)
    (permanent : list rect) : sketch :=
  mkSketch (width s) (height s) (heatMap s) (isLoading s)
           (rectWidth s) (rectHeight s) (mouseX s) (mouseY s)
           moving permanent.

(** [for (let i = lo; i < hi; i++)] over integers. *)
Definition for_range {A : Type} (lo hi : Z) (body : A -> Z -> A) (a : A) : A :=
  fold_left body (seqZ lo (hi - lo)) a.

(** The two nested loops of [calculateRectangleScore] on a defined heat
    map.  The guarded read is inside every pixel array made by
    [createImage(width, height)] (lemma [guarded_read_defined]), where it
    returns a byte. *)
Definition rectangleScoreOn (pixels : list Z) (width height : nat)
    (x y w h : Q) : Z :=
  for_range (Qfloor (x - w / 2)) (Qfloor (x + w / 2))
    (fun score i =>
       for_range (Qfloor (y - h / 2)) (Qfloor (y + h / 2))
         (fun score j =>
            if (0 <=? i) && (i <? Z.of_nat width)
               && (0 <=? j) && (j <? Z.of_nat height)
            then
              let index := (i + j * Z.of_nat width) * 4 in
              let brightness := default 0 (pixels !! Z.to_nat index) in
              score + brightness
            else score)
         score)
    0.

(** [calculateRectangleScore] of the hill-climbing variant, with its
    guard [if (!heatMap) return 0]. *)
Definition calculateRectangleScore (s : sketch) (x y w h : Q) : Z :=
  match heatMap s with
  | None => 0
  | Some pixels => rectangleScoreOn pixels (width s) (height s) x y w h
  end.

(** The test [mouseX >= 0 && mouseX < width && mouseY >= 0 &&
    mouseY < height]. *)
Definition mouseInCanvas (s : sketch) : bool :=
  Qle_bool 0 (mouseX s) && Qltb (mouseX s) (inject_Z (Z.of_nat (width s)))
  && Qle_bool 0 (mouseY s) && Qltb (mouseY s) (inject_Z (Z.of_nat (height s))).

(** [mousePressed]: start a search from the clicked position. *)
Definition mousePressed (s : sketch) : sketch :=
  if mouseInCanvas s then
    let rectYOffset := (- rectHeight s / 2 - 8)%Q in
    let score :=
      calculateRectangleScore s (mouseX s) (mouseY s + rectYOffset)
                              (rectWidth s) (rectHeight s) in
    setRectangles s
      (Some (mkRect (mouseX s) (mouseY s + rectYOffset)
                    (rectWidth s) (rectHeight s) score true))
      (permanentRectangles s)
  else s.

(** The eight unit offsets [{dx, dy}], in the order of the array literal:
    N, NE, E, SE, S, SW, W, NW. *)
Definition directions : list (Z * Z) :=
  [(0, -1); (1, -1); (1, 0); (1, 1); (0, 1); (-1, 1); (-1, 0); (-1, -1)].

(** The bounds test applied to a candidate centre. *)
Definition inBounds (s : sketch) (m : rect) (nx ny : Q) : bool :=
  Qle_bool 0 (nx - r_w m / 2)
  && Qltb (nx + r_w m / 2) (inject_Z (Z.of_nat (width s)))
  && Qle_bool 0 (ny - r_h m / 2)
  && Qltb (ny + r_h m / 2) (inject_Z (Z.of_nat (height s))).

(** Body of [for (let dir of directions)], on the pair
    [(bestScore, bestPos)]. *)
Definition tryDirection (s : sketch) (m : rect)
    (best : Z * (Q * Q)) (dir : Z * Z) : Z * (Q * Q) :=
  let nx := (r_x m + inject_Z (fst dir))%Q in
  let ny := (r_y m + inject_Z (snd dir))%Q in
  if inBounds s m nx ny then
    let score := calculateRectangleScore s nx ny (r_w m) (r_h m) in
    if score >? fst best then (score, (nx, ny)) else best
  else best.

(** The hill-climbing block of [draw]. *)
Definition hillClimbStep (s : sketch) : sketch :=
  match movingRectangle s with
  | Some m =>
      if r_searching m then
        let '(bestScore, bestPos) :=
          fold_left (tryDirection s m) directions (r_score m, (r_x m, r_y m)) in
        if bestScore >? r_score m then
          setRectangles s
            (Some (mkRect (fst bestPos) (snd bestPos) (r_w m) (r_h m)
                          bestScore true))
            (permanentRectangles s)
        else
          setRectangles s None
            (permanentRectangles s ++
               [mkRect (r_x m) (r_y m) (r_w m) (r_h m) (r_score m) false])
      else s
  | None => s
  end.

(** [draw], reduced to what changes the state: the loading screen and
    the screen shown without a heat map leave it alone; the best hovered
    rectangle, which nothing reads, is left out. *)
Definition draw (s : sketch) : sketch :=
  if isLoading s then s
  else match heatMap s with
       | Some _ => hillClimbStep s
       | None => s
       end.

(** [n] frames in a row. *)
Fixpoint frames (n : nat) (s : sketch) : sketch :=
  match n with
  | O => s
  | S n' => frames n' (draw s)
  end.

(** * Vocabulary of the statements *)

(** ** Aggregator *)

(** The grey level stored for a count. *)
Definition greyOfCount (count : nat) : Z := Num.ToUint8Clamp (sunValue count).

(** The integer nearest to [n / d], ties to the even one. *)
Definition roundDiv (n d : Z) : Z :=
  let q := n / d in
  let r := n mod d in
  match 2 * r ?= d with
  | Lt => q
  | Gt => q + 1
  | Eq => if Z.even q then q else q + 1
  end.

(** The cell value in the words of the specification,
    [round(count / N * 255)] for a pixel that is sunny in [count] of [N]
    buffers.  The specification does not say how a tie is rounded; ties go
    to the even integer here, as in the array store. *)
Definition specCellValue (count N : nat) : Z :=
  roundDiv (Z.of_nat count * 255) (Z.of_nat N).

(** Some buffers of the collection differ in size. *)
Definition mismatched (images : list p5Image) : Prop :=
  exists a b, In a images /\ In b images /\
    (img_width a, img_height a) <> (img_width b, img_height b).

(** What is left to do at a suspension, done in one go, and a bound on
    the callbacks still needed. *)
Definition completion (images : list p5Image) (width height : nat)
    (threshold : Num.number) (a : asyncHeatMap) : list Z :=
  match a with
  | Suspended x pixels =>
      fold_left (heatColumn images width height threshold)
                (seq x (width - x)) pixels
  | Completed pixels => pixels
  end.

Definition turnsLeft (width : nat) (a : asyncHeatMap) : nat :=
  match a with
  | Suspended x _ => S (width - x)
  | Completed _ => 0
  end.

(** ** Rectangle score *)

Definition sumZ (l : list Z) : Z := fold_right Z.add 0 l.

(** The value of the cell in column [i] and row [j] of the grid, 0 outside
    the grid. *)
Definition gridValue (pixels : list Z) (width height : nat) (i j : Z) : Z :=
  if (0 <=? i) && (i <? Z.of_nat width) && (0 <=? j) && (j <? Z.of_nat height)
  then default 0 (cell pixels width (Z.to_nat i) (Z.to_nat j))
  else 0.

(** The sum of the cells with column in [[lox, hix)] and row in
    [[loy, hiy)]. *)
Definition rectSum (pixels : list Z) (width height : nat)
    (lox hix loy hiy : Z) : Z :=
  sumZ (List.map
          (fun i => sumZ (List.map (gridValue pixels width height i)
                                   (seqZ loy (hiy - loy))))
          (seqZ lox (hix - lox))).

(** The score in the words of the specification (contract A): the sum
    over the cells between the floors of the four edges. *)
Definition specScore (pixels : list Z) (width height : nat) (x y w h : Q) : Z :=
  rectSum pixels width height
          (Qfloor (x - w / 2)) (Qfloor (x + w / 2))
          (Qfloor (y - h / 2)) (Qfloor (y + h / 2)).

(** ** Hill climbing *)

(** The candidate centre in a direction, whether the bounds test admits
    it, and the score of the rectangle moved to a centre. *)
Definition shift (m : rect) (dir : Z * Z) : Q * Q :=
  ((r_x m + inject_Z (fst dir))%Q, (r_y m + inject_Z (snd dir))%Q).

Definition candidateOk (s : sketch) (m : rect) (dir : Z * Z) : bool :=
  inBounds s m (fst (shift m dir)) (snd (shift m dir)).

Definition scoreAt (s : sketch) (m : rect) (p : Q * Q) : Z :=
  calculateRectangleScore s (fst p) (snd p) (r_w m) (r_h m).

(** The rectangle centred at [p] reaches over an edge of the canvas. *)
Definition partlyOutside (s : sketch) (m : rect) (p : Q * Q) : Prop :=
  (fst p - r_w m / 2 < 0
   \/ inject_Z (Z.of_nat (width s)) < fst p + r_w m / 2
   \/ snd p - r_h m / 2 < 0
   \/ inject_Z (Z.of_nat (height s)) < snd p + r_h m / 2)%Q.

(** The two outcomes of a frame on a searching rectangle: it has moved in
    a direction, or it is frozen and saved. *)
Definition stepTo (s : sketch) (m : rect) (dir : Z * Z) : rect :=
  mkRect (fst (shift m dir)) (snd (shift m dir)) (r_w m) (r_h m)
         (scoreAt s m (shift m dir)) true.

Definition movedTo (s : sketch) (m : rect) (dir : Z * Z) : sketch :=
  setRectangles s (Some (stepTo s m dir)) (permanentRectangles s).

Definition frozen (s : sketch) (m : rect) : sketch :=
  setRectangles s None
    (permanentRectangles s ++
       [mkRect (r_x m) (r_y m) (r_w m) (r_h m) (r_score m) false]).

(** The stored score of the rectangle in progress is the score of its
    stored position on the heat map of the state. *)
Definition scoreInvariant (s : sketch) : Prop :=
  forall m, movingRectangle s = Some m ->
            r_score m
            = calculateRectangleScore s (r_x m) (r_y m) (r_w m) (r_h m).

(** The cell under the top left corner of the rectangle centred at [p],
    and the numbers of columns and rows that the rectangle covers. *)
Definition corner (m : rect) (p : Q * Q) : Z * Z :=
  (Qfloor (fst p - r_w m / 2), Qfloor (snd p - r_h m / 2)).

Definition spanX (m : rect) : Z :=
  Qfloor (r_x m + r_w m / 2) - Qfloor (r_x m - r_w m / 2).

Definition spanY (m : rect) : Z :=
  Qfloor (r_y m + r_h m / 2) - Qfloor (r_y m - r_h m / 2).

(** The score of a rectangle of [sx] columns and [sy] rows with its corner
    on cell [c]. *)
Definition cellScore (pixels : list Z) (W H : nat) (sx sy : Z) (c : Z * Z) : Z :=
  rectSum pixels W H (fst c) (fst c + sx) (snd c) (snd c + sy).

Definition cells (W H : nat) : list (Z * Z) :=
  list_prod (seqZ 0 (Z.of_nat W)) (seqZ 0 (Z.of_nat H)).

(** The cells from which the rectangle would score strictly more than
    its stored score: the measure that decreases along a search. *)
Definition betterCells (pixels : list Z) (W H : nat) (m : rect) : list (Z * Z) :=
  List.filter (fun c => r_score m <? cellScore pixels W H (spanX m) (spanY m) c)
              (cells W H).

(** A search from [m] in state [s]: [n] moves, then the frame that
    freezes and saves [final]. *)
Record searchResult (s : sketch) (m final : rect) (n : nat) : Prop := {
  sr_running : forall j, (j <= n)%nat ->
      exists mj, movingRectangle (frames j s) = Some mj
                 /\ r_searching mj = true;
  sr_frozen : frames (S n) s
              = setRectangles s None (permanentRectangles s ++ [final]);
  sr_saved : r_searching final = false;
  sr_size : r_w final = r_w m /\ r_h final = r_h m;
  sr_improves : r_score m <= r_score final;
  sr_score : r_score final = scoreAt s final (r_x final, r_y final);
  sr_local_max : forall d, In d directions -> candidateOk s final d = true ->
      scoreAt s final (shift final d) <= r_score final
}.

(** ** Concrete inputs *)

Definition white1 : p5Image := mkImage 1 1 [255; 255; 255; 255].

Definition white2 : p5Image :=
  mkImage 2 1 [255; 255; 255; 255; 255; 255; 255; 255].

Definition grey210 : p5Image := mkImage 1 1 [210; 210; 210; 255].

(** The 5x5 grid with the single cell (2, 2) at 255, and the state of a
    search of a 1x1 rectangle centred at (x, y) on it. *)
Definition peakGrid : list Z :=
  <[50%nat := 255]> (<[49%nat := 255]> (<[48%nat := 255]> (createImage 5 5))).

Definition peakSearch (x y : Q) : sketch :=
  mkSketch 5 5 (Some peakGrid) false 1 1 0 0
    (Some (mkRect x y 1 1 (rectangleScoreOn peakGrid 5 5 x y 1 1) true)) [].

(** * The rest of the sketch *)

(** ** More of JavaScript and p5.js *)

(** [Math.min] and [Math.max], which p5's [min] and [max] call on two
    numbers: NaN when a side is NaN, the negative zero below the positive
    one. *)
Definition Math_min (a b : Num.number) : Num.number :=
  match a, b with
  | S754_zero sa, S754_zero sb => S754_zero (sa || sb)
  | _, _ =>
      match SFcompare a b with
      | None => S754_nan
      | Some Lt => a
      | Some _ => b
      end
  end.

Definition Math_max (a b : Num.number) : Num.number :=
  match a, b with
  | S754_zero sa, S754_zero sb => S754_zero (sa && sb)
  | _, _ =>
      match SFcompare a b with
      | None => S754_nan
      | Some Gt => a
      | Some _ => b
      end
  end.

(** [Math.floor] of a finite number, as an integer. *)
Definition Math_floor (f : Num.number) : option Z :=
  match f with
  | S754_zero _ => Some 0
  | S754_finite s m e =>
      let n := if s then Z.neg m else Z.pos m in
      Some (if 0 <=? e then n * 2 ^ e else n / 2 ^ (- e))
  | _ => None
  end.

(** p5's [map] and [max] on the exact numbers of the placement code. *)
Definition p5_mapQ (n start1 stop1 start2 stop2 : Q) : Q :=
  ((n - start1) / (stop1 - start1) * (stop2 - start2) + start2)%Q.

Definition maxQ (a b : Q) : Q := if Qle_bool a b then b else a.

(** ** The remaining globals *)

(** [loadingStage]: ['images'] or ['heatmap']. *)
Inductive stage := StageImages | StageHeatmap.

(** The globals that [sketch] leaves out: the images and the count of the
    loads attempted, the threshold, the orientation flag, the loading
    stage, and the [async generateHeatMap] in flight, if any. *)
Record studio := mkStudio {
  sketchOf : sketch;
  images : list p5Image;
  loaded : nat;
  threshold : Num.number;
  isVertical : bool;
  loadingStage : stage;
  generating : option asyncHeatMap
}.

Definition withSketch (a : studio) (s : sketch) : studio :=
  mkStudio s (images a) (loaded a) (threshold a) (isVertical a)
           (loadingStage a) (generating a).

(** Assignments to globals of [sketch]. *)
Definition setRectSize (s : sketch) (w h : Q) : sketch :=
  mkSketch (width s) (height s) (heatMap s) (isLoading s) w h
           (mouseX s) (mouseY s) (movingRectangle s) (permanentRectangles s).

Definition setMouse (s : sketch) (x y : Q) : sketch :=
  mkSketch (width s) (height s) (heatMap s) (isLoading s)
           (rectWidth s) (rectHeight s) x y
           (movingRectangle s) (permanentRectangles s).

Definition setHeatMap (s : sketch) (hm : option (list Z)) : sketch :=
  mkSketch (width s) (height s) hm (isLoading s)
           (rectWidth s) (rectHeight s) (mouseX s) (mouseY s)
           (movingRectangle s) (permanentRectangles s).

Definition setIsLoading (s : sketch) (b : bool) : sketch :=
  mkSketch (width s) (height s) (heatMap s) b
           (rectWidth s) (rectHeight s) (mouseX s) (mouseY s)
           (movingRectangle s) (permanentRectangles s).

(** [resizeCanvas(w, h)]. *)
Definition resizeCanvas (s : sketch) (w h : nat) : sketch :=
  mkSketch w h (heatMap s) (isLoading s)
           (rectWidth s) (rectHeight s) (mouseX s) (mouseY s)
           (movingRectangle s) (permanentRectangles s).

(** The globals as the declarations and [setup] of the hill-climbing
    variant leave them: [scale = 192 / 19], a rectangle of 8 by 4 feet, the
    threshold 200 and a canvas of 1280 by 720. *)
Definition scale : Q := 192 / 19.

Definition initialStudio : studio :=
  mkStudio
    (mkSketch 1280 720 None true (8 * scale) (4 * scale) 0 0 None [])
    [] 0 (Num.of_Z 200) true StageImages None.

(** ** Keyboard *)

(** The keys that [keyPressed] tells apart. *)
Inductive keyEvent :=
| UP_ARROW | DOWN_ARROW | KEY_S | KEY_SPACE | KEY_PLUS | KEY_MINUS | KEY_OTHER.

(** The synchronous call [generateHeatMap()] of a key handler.  Without a
    heat map the call throws at [heatMap.loadPixels()] and the handler
    stops there, after the assignment to [threshold]. *)
Definition regenerate (a : studio) : studio :=
  let s := sketchOf a in
  match heatMap s with
  | Some pixels =>
      withSketch a
        (setHeatMap s
           (Some (generateHeatMap (images a) (width s) (height s)
                                  (threshold a) pixels)))
  | None => a
  end.

Definition setThreshold (a : studio) (t : Num.number) : studio :=
  mkStudio (sketchOf a) (images a) (loaded a) t (isVertical a)
           (loadingStage a) (generating a).

(** The branches of [keyPressed] on the rectangle, shared by all the
    variants that have one. *)
Definition flipRectangle (a : studio) : studio :=
  let s := sketchOf a in
  mkStudio (setRectSize s (rectHeight s) (rectWidth s))
           (images a) (loaded a) (threshold a) (negb (isVertical a))
           (loadingStage a) (generating a).

Definition growRectangle (a : studio) : studio :=
  let s := sketchOf a in
  withSketch a
    (setRectSize s
       (rectWidth s + (if isVertical a then 1 else 2))%Q
       (rectHeight s + (if isVertical a then 2 else 1))%Q).

Definition shrinkRectangle (a : studio) : studio :=
  let s := sketchOf a in
  let rectWidth' := maxQ 1 (rectWidth s - (if isVertical a then 1 else 2)) in
  let rectHeight' := maxQ 1 (rectHeight s - (if isVertical a then 2 else 1)) in
  withSketch a (setRectSize s rectWidth' rectHeight').

(** [keyPressed] of src/sketch.js, with the threshold on the arrows. *)
Definition keyPressed (k : keyEvent) (a : studio) : studio :=
  match k with
  | UP_ARROW =>
      regenerate
        (setThreshold a
           (Math_min (Num.add (threshold a) (Num.of_Z 10)) (Num.of_Z 255)))
  | DOWN_ARROW =>
      regenerate
        (setThreshold a
           (Math_max (Num.sub (threshold a) (Num.of_Z 10)) (Num.of_Z 0)))
  | KEY_S => a
  | KEY_SPACE => flipRectangle a
  | KEY_PLUS => growRectangle a
  | KEY_MINUS => shrinkRectangle a
  | KEY_OTHER => a
  end.

(** [keyPressed] of the hill-climbing variant: the arrows do nothing. *)
Definition keyPressedSearch (k : keyEvent) (a : studio) : studio :=
  match k with
  | UP_ARROW | DOWN_ARROW => a
  | _ => keyPressed k a
  end.

(** ** Loading *)

(** The outcome of one [loadImage]. *)
Inductive loadEvent :=
| LoadSuccess (img : p5Image)
| LoadFailure.

(** The [async] function after a call or a resumption: still suspended,
    or completed, with [updatePixels] and then [isLoading = false]. *)
Definition settle (a : studio) (r : asyncHeatMap) : studio :=
  match r with
  | Suspended _ _ =>
      mkStudio (sketchOf a) (images a) (loaded a) (threshold a)
               (isVertical a) (loadingStage a) (Some r)
  | Completed pixels =>
      mkStudio (setIsLoading (setHeatMap (sketchOf a) (Some pixels)) false)
               (images a) (loaded a) (threshold a)
               (isVertical a) (loadingStage a) None
  end.

(** Body of [if (loaded === totalImages)] in both callbacks.  The field
    [heatMap] holds the pixels of the image itself, black from
    [createImage] until [updatePixels]. *)
Definition allAttempted (a : studio) : studio :=
  match images a with
  | img0 :: _ =>
      let s := resizeCanvas (sketchOf a) (img_width img0) (img_height img0) in
      let blank := createImage (width s) (height s) in
      let s' := setIsLoading (setHeatMap s (Some blank)) true in
      settle
        (mkStudio s' (images a) (loaded a) (threshold a) (isVertical a)
                  StageHeatmap (generating a))
        (generateHeatMapAsync (images a) (width s) (height s) (threshold a)
                              blank)
  | [] => withSketch a (setIsLoading (sketchOf a) false)
  end.

(** The two callbacks of [loadImage] in [loadImages]. *)
Definition imageCallback (a : studio) (e : loadEvent) : studio :=
  let a' :=
    match e with
    | LoadSuccess img =>
        mkStudio (sketchOf a) (images a ++ [img]) (S (loaded a))
                 (threshold a) (isVertical a) (loadingStage a) (generating a)
    | LoadFailure =>
        mkStudio (sketchOf a) (images a) (S (loaded a))
                 (threshold a) (isVertical a) (loadingStage a) (generating a)
    end in
  if (loaded a' =? totalImages)%nat then allAttempted a' else a'.

(** The timer callback of an [await]: the function in flight resumes. *)
Definition timerTurn (a : studio) : studio :=
  match generating a with
  | Some r =>
      settle a (resume (images a) (width (sketchOf a)) (height (sketchOf a))
                       (threshold a) r)
  | None => a
  end.

Fixpoint timerTurns (n : nat) (a : studio) : studio :=
  match n with
  | O => a
  | S n' => timerTurns n' (timerTurn a)
  end.

(** The images of the successful loads, in the order of the callbacks. *)
Definition successes (es : list loadEvent) : list p5Image :=
  flat_map (fun e => match e with LoadSuccess img => [img] | LoadFailure => [] end)
           es.

(** [updateLoadingBar] of src/sketch.js: the percentage and the integer
    shown in the text. *)
Definition loadingProgress (loaded : nat) : Num.number :=
  Num.mul (Num.div (Num.of_Z (Z.of_nat loaded)) (Num.of_Z (Z.of_nat totalImages)))
          (Num.of_Z 100).

Definition loadingText (loaded : nat) : option Z :=
  Math_floor (loadingProgress loaded).

(** ** Mouse, frames and keys of the hill-climbing variant *)

Inductive uiEvent :=
| MouseMoved (x y : Q)
| MousePressed
| Frame
| KeyPressed (k : keyEvent).

Definition handle (a : studio) (e : uiEvent) : studio :=
  match e with
  | MouseMoved x y => withSketch a (setMouse (sketchOf a) x y)
  | MousePressed => withSketch a (mousePressed (sketchOf a))
  | Frame => withSketch a (draw (sketchOf a))
  | KeyPressed k => keyPressedSearch k a
  end.

Definition handleAll (es : list uiEvent) (a : studio) : studio :=
  fold_left handle es a.

(** ** Hover information and percentages *)

(** [displayHoverInfo]: the hours and the percentage computed from the
    grey level under the mouse, and the corner of the information box. *)
Definition daylightHours (pixelBrightness : option Z) : Num.number :=
  p5_map (Num.ToNumber pixelBrightness) (Num.of_Z 0) (Num.of_Z 255)
         (Num.of_Z 0) (Num.of_Z (Z.of_nat totalImages)).

Definition hoverPercentage (pixelBrightness : option Z) : Num.number :=
  Num.mul (Num.div (daylightHours pixelBrightness)
                   (Num.of_Z (Z.of_nat totalImages)))
          (Num.of_Z 100).

Definition boxWidth : Q := 160.
Definition boxHeight : Q := 38.

Definition hoverBox (s : sketch) : Q * Q :=
  let x := mouseX s in
  let y := mouseY s in
  let boxX := (x + 15)%Q in
  let boxY := (y - 40)%Q in
  let boxX :=
    if Qltb (inject_Z (Z.of_nat (width s))) (boxX + boxWidth)
    then (x - boxWidth - 15)%Q else boxX in
  let boxY := if Qltb boxY 5 then 5%Q else boxY in
  (boxX, boxY).

(** [map(score / (w * h), 0, 255, 0, 100)], the percentage that [draw]
    prints in a rectangle. *)
Definition daylightPercentage (score : Z) (w h : Q) : Q :=
  p5_mapQ (inject_Z score / (w * h)) 0 255 0 100.

(** The block of [draw] of the hill-climbing variant that tracks the best
    rectangle hovered so far, which [draw] above leaves out.  It runs
    before the hill-climbing block, on the same globals; the object it
    stores has no [searching] field, read here as false. *)
Definition trackBest (s : sketch) (bestRectangle : option rect) : option rect :=
  if isLoading s then bestRectangle
  else match heatMap s with
       | None => bestRectangle
       | Some _ =>
           if mouseInCanvas s then
             let rectYOffset := (- rectHeight s / 2 - 8)%Q in
             let score :=
               calculateRectangleScore s (mouseX s) (mouseY s + rectYOffset)
                                       (rectWidth s) (rectHeight s) in
             let better :=
               match bestRectangle with
               | None => true
               | Some best => r_score best <? score
               end in
             if better
             then Some (mkRect (mouseX s) (mouseY s + rectYOffset)
                               (rectWidth s) (rectHeight s) score false)
             else bestRectangle
           else bestRectangle
       end.

(** The events of the hill-climbing variant in a row, with the best
    hovered rectangle beside the other globals. *)
Fixpoint bestAfter (es : list uiEvent) (a : studio) (bestRectangle : option rect)
    : option rect :=
  match es with
  | [] => bestRectangle
  | e :: es' =>
      bestAfter es' (handle a e)
        (match e with
         | Frame => trackBest (sketchOf a) bestRectangle
         | _ => bestRectangle
         end)
  end.

(** ** Vocabulary of the further statements *)

(** A quarter, as a number. *)
Definition quarter : Num.number := Num.div (Num.of_Z 1) (Num.of_Z 4).

(** The score that a frame computes for the rectangle above the mouse,
    when it computes one. *)
Definition hoverScore (s : sketch) : option Z :=
  if isLoading s then None
  else match heatMap s with
       | None => None
       | Some _ =>
           if mouseInCanvas s
           then Some (calculateRectangleScore s (mouseX s)
                        (mouseY s + (- rectHeight s / 2 - 8))%Q
                        (rectWidth s) (rectHeight s))
           else None
       end.

(** The scores computed by the frames of a sequence of events. *)
Fixpoint hoverScores (es : list uiEvent) (a : studio) : list Z :=
  match es with
  | [] => []
  | e :: es' =>
      match e with
      | Frame =>
          match hoverScore (sketchOf a) with
          | Some z => [z]
          | None => []
          end
      | _ => []
      end ++ hoverScores es' (handle a e)
  end.

(** [best] holds the highest of the scores [scores] and of the score of
    [start], and is [start] or was made from one of [scores]. *)
Definition highestOf (start : option rect) (scores : list Z)
    (best : option rect) : Prop :=
  match best with
  | None => start = None /\ scores = []
  | Some b =>
      (start = Some b \/ In (r_score b) scores)
      /\ List.Forall (fun z => z <= r_score b) scores
      /\ (forall b0, start = Some b0 -> r_score b0 <= r_score b)
  end.

(** The columns and the rows that the two loops of
    [calculateRectangleScore] visit. *)
Definition columnsOf (x w : Q) : Z := Qfloor (x + w / 2) - Qfloor (x - w / 2).

(** Every cell of the grid has the grey level [g]. *)
Definition uniform (pixels : list Z) (W H : nat) (g : Z) : Prop :=
  forall x y, (x < W)%nat -> (y < H)%nat -> cell pixels W x y = Some g.

(** A sketch with a white heat map of two by two pixels. *)
Definition whiteSketch : sketch :=
  mkSketch 2 2 (Some (replicate 16 255)) false (3 / 2) (3 / 2) 1 1 None [].

(** The four bytes of pixel (x, y). *)
Definition rgba (pixels : list Z) (width x y : nat) : list (option Z) :=
  let index := ((x + y * width) * 4)%nat in
  [pixels !! index; pixels !! (index + 1)%nat;
   pixels !! (index + 2)%nat; pixels !! (index + 3)%nat].

(** The bytes of a [Uint8ClampedArray]. *)
Definition bytes (pixels : list Z) : Prop :=
  List.Forall (fun v => 0 <= v <= 255) pixels.

(** A saved rectangle the search could not improve: frozen, with the score
    of its position and no admitted neighbour scoring more. *)
Definition localMaximum (s : sketch) (r : rect) : Prop :=
  r_searching r = false
  /\ r_score r = scoreAt s r (r_x r, r_y r)
  /\ forall d, In d directions -> candidateOk s r d = true ->
               scoreAt s r (shift r d) <= r_score r.

(** The threshold is the integer [k]. *)
Definition thresholdIs (a : studio) (k : Z) : Prop :=
  threshold a = Num.of_Z k.

(** The heat map shown is the one of the images and of the current
    threshold. *)
Definition heatMapCurrent (a : studio) : Prop :=
  let s := sketchOf a in
  heatMap s
  = Some (generateHeatMap (images a) (width s) (height s) (threshold a)
                          (createImage (width s) (height s))).

(** Two numbers are the same bits. *)
Definition sameNumber (a b : Num.number) : bool :=
  match a, b with
  | S754_zero s, S754_zero s' => Bool.eqb s s'
  | S754_infinity s, S754_infinity s' => Bool.eqb s s'
  | S754_nan, S754_nan => true
  | S754_finite s m e, S754_finite s' m' e' =>
      Bool.eqb s s' && (m =? m')%positive && (e =? e')
  | _, _ => false
  end.

(** The byte that [generateHeatMap] leaves in channel [k] of pixel
    (x, y). *)
Definition channelValue (images : list p5Image) (threshold : Num.number)
    (x y k : nat) : Z :=
  if (k =? 3)%nat then 255 else greyOfCount (sunnyCount images threshold x y).

(** The threshold after a key, when it was the byte [k]. *)
Definition thresholdAfter (key : keyEvent) (k : Z) : Z :=
  match key with
  | UP_ARROW => Z.min (k + 10) 255
  | DOWN_ARROW => Z.max (k - 10) 0
  | _ => k
  end.

(** The grey level of cell (x, y) of the heat map of a state. *)
Definition cellOf (s : sketch) (x y : nat) : option Z :=
  match heatMap s with
  | Some pixels => cell pixels (width s) x y
  | None => None
  end.

(** The load callbacks, the timer callbacks and the keys in a row. *)
Definition loads (es : list loadEvent) (a : studio) : studio :=
  fold_left imageCallback es a.

Definition keysPressed (keys : list keyEvent) (a : studio) : studio :=
  fold_left (fun a key => keyPressed key a) keys a.

(** The state when the [async] function has completed with [pixels]. *)
Definition committed (a : studio) (pixels : list Z) : studio :=
  mkStudio (setIsLoading (setHeatMap (sketchOf a) (Some pixels)) false)
           (images a) (loaded a) (threshold a)
           (isVertical a) (loadingStage a) None.

(** A state of src/sketch.js after loading: one grey image of one pixel,
    its heat map at the threshold 200, a rectangle of one pixel. *)
Definition demoStudio : studio :=
  mkStudio
    (mkSketch 1 1
       (Some (generateHeatMap [grey210] 1 1 (Num.of_Z 200) (createImage 1 1)))
       false 1 1 0 0 None [])
    [grey210] 1 (Num.of_Z 200) true StageHeatmap None.

(** Every load fails. *)
Definition allFail : list loadEvent := repeat LoadFailure totalImages.

(** One image loads, the last of all. *)
Definition oneLoads : list loadEvent :=
  repeat LoadFailure (totalImages - 1) ++ [LoadSuccess white1].

(** The search on the single peak as a state of all the globals. *)
Definition peakStudio : studio :=
  mkStudio (peakSearch 2 2) [] 90 (Num.of_Z 200) true StageHeatmap None.


(** * Properties *)

(** ** Numbers *)

(** The literals are the correctly rounded quotients. *)
Lemma literals_are_nearest :
  Num.lit_0_299 = Num.div (Num.of_Z 299) (Num.of_Z 1000)
  /\ Num.lit_0_587 = Num.div (Num.of_Z 587) (Num.of_Z 1000)
  /\ Num.lit_0_114 = Num.div (Num.of_Z 114) (Num.of_Z 1000).
Proof. vm_compute. repeat split; reflexivity. Qed.

(** Why the brightness is not computed over the rationals: the pixel
    (1, 113, 205) has the exact brightness 90 and the binary64 brightness
    just above it, the pixel (1, 1, 1) the exact brightness 1 and the
    binary64 brightness just below it. *)
Lemma brightness_is_rounded :
  299 * 1 + 587 * 113 + 114 * 205 = 1000 * 90
  /\ sunny (Num.of_Z 90) (mkImage 1 1 [1; 113; 205; 255]) 0 0 = true
  /\ Num.gt (Num.of_Z 1) (brightness (mkImage 1 1 [1; 1; 1; 255]) 0 0) = true.
Proof. vm_compute. repeat split; reflexivity. Qed.

(** ** The aggregation loops *)

Section AggregatorFacts.

Variable images : list p5Image.
Variable W H : nat.
Variable threshold : Num.number.

Local Abbreviation pixelAt := (heatPixel images W threshold).
Local Abbreviation column := (heatColumn images W H threshold).
Local Abbreviation grey x y := (greyOfCount (sunnyCount images threshold x y)).

Lemma index_injective (x y x' y' : nat) (k : nat) :
  (x < W)%nat -> (x' < W)%nat -> (k < 4)%nat ->
  ((x' + y' * W) * 4 = (x + y * W) * 4 + k)%nat ->
  x' = x /\ y' = y.
Proof.
  intros Hx Hx' Hk E.
  assert (E' : (x' + y' * W = x + y * W)%nat) by lia.
  destruct (Nat.lt_trichotomy y y') as [Hlt | [Heq | Hgt]].
  - exfalso. nia.
  - subst. split; lia.
  - exfalso. nia.
Qed.

Lemma heatPixel_length (x y : nat) (pixels : list Z) :
  length (pixelAt x pixels y) = length pixels.
Proof. unfold heatPixel. now rewrite !length_insert. Qed.

Lemma heatPixel_cell_same (x y : nat) (pixels : list Z) :
  ((x + y * W) * 4 < length pixels)%nat ->
  cell (pixelAt x pixels y) W x y = Some (grey x y).
Proof.
  intros Hlen. unfold cell, heatPixel.
  rewrite !list_lookup_insert_ne by lia.
  now apply list_lookup_insert_eq.
Qed.

Lemma heatPixel_cell_other (x y x' y' : nat) (pixels : list Z) :
  (x < W)%nat -> (x' < W)%nat -> (x', y') <> (x, y) ->
  cell (pixelAt x pixels y) W x' y' = cell pixels W x' y'.
Proof.
  intros Hx Hx' Hne. unfold cell, heatPixel.
  rewrite !list_lookup_insert_ne; try reflexivity;
    intros E; apply Hne;
    match type of E with
    | (?a + ?k = _)%nat =>
        destruct (index_injective x y x' y' k) as [-> ->]; try lia; reflexivity
    | _ =>
        destruct (index_injective x y x' y' 0) as [-> ->]; try lia; reflexivity
    end.
Qed.

(** A run of the loop over [y] on any list of rows. *)
Lemma heatRows_length (x : nat) (ys : list nat) (pixels : list Z) :
  length (fold_left (pixelAt x) ys pixels) = length pixels.
Proof.
  revert pixels. induction ys as [| y ys IH]; intros pixels; simpl.
  - reflexivity.
  - now rewrite IH, heatPixel_length.
Qed.

Lemma heatRows_cell_other (x x' y' : nat) (ys : list nat) (pixels : list Z) :
  (x < W)%nat -> (x' < W)%nat -> (x' <> x \/ ~ In y' ys) ->
  cell (fold_left (pixelAt x) ys pixels) W x' y' = cell pixels W x' y'.
Proof.
  intros Hx Hx'. revert pixels.
  induction ys as [| y ys IH]; intros pixels Hout; simpl.
  - reflexivity.
  - rewrite IH by (simpl in Hout; tauto).
    apply heatPixel_cell_other; trivial.
    intros [= -> ->]. simpl in Hout. tauto.
Qed.

Lemma heatRows_cell_same (x y : nat) (ys : list nat) (pixels : list Z) :
  (x < W)%nat -> In y ys -> ((x + y * W) * 4 < length pixels)%nat ->
  cell (fold_left (pixelAt x) ys pixels) W x y = Some (grey x y).
Proof.
  intros Hx. revert pixels.
  induction ys as [| y0 ys IH]; intros pixels Hin Hlen; simpl.
  - destruct Hin.
  - destruct (in_dec Nat.eq_dec y ys) as [Hys | Hys].
    + apply IH; trivial. now rewrite heatPixel_length.
    + destruct Hin as [-> | Hin]; [| contradiction].
      rewrite heatRows_cell_other by auto.
      now apply heatPixel_cell_same.
Qed.

Lemma heatColumn_length (x : nat) (pixels : list Z) :
  length (column pixels x) = length pixels.
Proof. apply heatRows_length. Qed.

Lemma heatColumns_length (xs : list nat) (pixels : list Z) :
  length (fold_left column xs pixels) = length pixels.
Proof.
  revert pixels. induction xs as [| x xs IH]; intros pixels; simpl.
  - reflexivity.
  - now rewrite IH, heatColumn_length.
Qed.

Lemma heatColumns_cell_other (x' y' : nat) (xs : list nat) (pixels : list Z) :
  Forall (fun x => (x < W)%nat) xs -> (x' < W)%nat -> ~ In x' xs ->
  cell (fold_left column xs pixels) W x' y' = cell pixels W x' y'.
Proof.
  intros Hxs Hx'. revert pixels.
  induction Hxs as [| x xs Hx Hxs IH]; intros pixels Hout; simpl.
  - reflexivity.
  - rewrite IH by (simpl in Hout; tauto).
    apply heatRows_cell_other; trivial.
    left. intros ->. apply Hout. now left.
Qed.

Lemma heatColumns_cell_same (x y : nat) (xs : list nat) (pixels : list Z) :
  Forall (fun x => (x < W)%nat) xs -> In x xs -> (y < H)%nat ->
  ((x + y * W) * 4 < length pixels)%nat ->
  cell (fold_left column xs pixels) W x y = Some (grey x y).
Proof.
  intros Hxs. revert pixels.
  induction Hxs as [| x0 xs Hx0 Hxs IH]; intros pixels Hin Hy Hlen; simpl.
  - destruct Hin.
  - destruct (in_dec Nat.eq_dec x xs) as [Hin' | Hout].
    + apply IH; trivial. now rewrite heatColumn_length.
    + destruct Hin as [-> | Hin]; [| contradiction].
      rewrite heatColumns_cell_other by (trivial).
      apply heatRows_cell_same; trivial.
      apply in_seq. lia.
Qed.

(** Every cell of the canvas holds the grey level of its own count. *)
Lemma generateHeatMap_cell (x y : nat) (pixels : list Z) :
  (x < W)%nat -> (y < H)%nat -> length pixels = (W * H * 4)%nat ->
  cell (generateHeatMap images W H threshold pixels) W x y = Some (grey x y).
Proof.
  intros Hx Hy Hlen. unfold generateHeatMap.
  apply heatColumns_cell_same; trivial.
  - apply List.Forall_forall. intros x0 Hin. apply in_seq in Hin. lia.
  - apply in_seq. lia.
  - rewrite Hlen. nia.
Qed.

Lemma generateHeatMap_length (pixels : list Z) :
  length (generateHeatMap images W H threshold pixels) = length pixels.
Proof. apply heatColumns_length. Qed.

End AggregatorFacts.

(** The counting loop counts the sunny images. *)
Lemma count_loop_filter {A : Type} (f : A -> bool) (l : list A) (n : nat) :
  fold_left (fun count a => if f a then S count else count) l n
  = (n + length (List.filter f l))%nat.
Proof.
  revert n. induction l as [| a l IH]; intros n; simpl.
  - lia.
  - rewrite IH. destruct (f a); simpl; lia.
Qed.

Lemma sunnyCount_filter (images : list p5Image) (t : Num.number) (x y : nat) :
  sunnyCount images t x y
  = length (List.filter (fun img => sunny t img x y) images).
Proof. unfold sunnyCount. now rewrite count_loop_filter. Qed.

Lemma sunnyCount_le_length (images : list p5Image) (t : Num.number) (x y : nat) :
  (sunnyCount images t x y <= length images)%nat.
Proof. rewrite sunnyCount_filter. apply List.filter_length_le. Qed.

(** ** Order of numbers *)

Ltac compare_cases :=
  repeat match goal with
    | H : context [Z.compare ?a ?b] |- _ => destruct (Z.compare_spec a b)
    | |- context [Z.compare ?a ?b] => destruct (Z.compare_spec a b)
    | H : context [Pos.compare ?a ?b] |- _ => destruct (Pos.compare_spec a b)
    | |- context [Pos.compare ?a ?b] => destruct (Pos.compare_spec a b)
    end.

(** [a <= b] and [b < c] give [a < c], NaN included. *)
Lemma SFleb_ltb_trans (a b c : spec_float) :
  SFleb a b = true -> SFltb b c = true -> SFltb a c = true.
Proof.
  unfold SFleb, SFltb, SFcompare.
  destruct a as [[]|[]| |[] ma ea]; destruct b as [[]|[]| |[] mb eb];
    destruct c as [[]|[]| |[] mc ec];
    intros Hab Hbc; try discriminate; try reflexivity;
    change (Pos.compare_cont Eq) with Pos.compare in *;
    compare_cases; simpl in *; try discriminate; try reflexivity;
    subst; try lia.
Qed.

Lemma sunny_antitone (t1 t2 : Num.number) (img : p5Image) (x y : nat) :
  Num.le t1 t2 = true -> sunny t2 img x y = true -> sunny t1 img x y = true.
Proof. unfold sunny, Num.gt, Num.le. apply SFleb_ltb_trans. Qed.

Lemma filter_length_mono {A : Type} (f g : A -> bool) (l : list A) :
  (forall a, f a = true -> g a = true) ->
  (length (List.filter f l) <= length (List.filter g l))%nat.
Proof.
  intros Hfg. induction l as [| a l IH]; simpl.
  - lia.
  - destruct (f a) eqn:Ef.
    + rewrite (Hfg a Ef). simpl. lia.
    + destruct (g a); simpl; lia.
Qed.

Lemma sunnyCount_antitone (images : list p5Image) (t1 t2 : Num.number) (x y : nat) :
  Num.le t1 t2 = true ->
  (sunnyCount images t2 x y <= sunnyCount images t1 x y)%nat.
Proof.
  intros Hle. rewrite !sunnyCount_filter.
  apply filter_length_mono. intros img. now apply sunny_antitone.
Qed.

(** ** Grey levels *)

Lemma grey_table_ok :
  forallb (fun c => greyOfCount c =? specCellValue c totalImages)
          (seq 0 (S totalImages)) = true.
Proof. vm_compute. reflexivity. Qed.

Lemma grey_table_steps :
  forallb (fun c => greyOfCount c <=? greyOfCount (S c)) (seq 0 totalImages)
  = true.
Proof. vm_compute. reflexivity. Qed.

Lemma in_all_counts (c : nat) :
  (c <= totalImages)%nat -> In c (seq 0 (S totalImages)).
Proof. intros Hc. apply in_seq. lia. Qed.

Lemma greyOfCount_closed_form (count : nat) :
  (count <= totalImages)%nat ->
  greyOfCount count = specCellValue count totalImages.
Proof.
  intros Hc. apply Z.eqb_eq.
  exact (proj1 (forallb_forall _ _) grey_table_ok count (in_all_counts count Hc)).
Qed.

Lemma greyOfCount_step (c : nat) :
  (c < totalImages)%nat -> greyOfCount c <= greyOfCount (S c).
Proof.
  intros Hc. apply Z.leb_le.
  refine (proj1 (forallb_forall _ _) grey_table_steps c _).
  apply in_seq. lia.
Qed.

Lemma greyOfCount_monotone (c1 c2 : nat) :
  (c1 <= c2)%nat -> (c2 <= totalImages)%nat ->
  greyOfCount c1 <= greyOfCount c2.
Proof.
  induction 1 as [| c2 H12 IH]; intros H2.
  - apply Z.le_refl.
  - apply Z.le_trans with (greyOfCount c2).
    + apply IH. lia.
    + apply greyOfCount_step. lia.
Qed.

(** ** The asynchronous variant *)

Section AsyncFacts.

Variable images : list p5Image.
Variable width height : nat.
Variable threshold : Num.number.

Local Abbreviation completion := (completion images width height threshold).
Local Abbreviation asyncColumns := (asyncColumns images width height threshold).
Local Abbreviation resume := (resume images width height threshold).
Local Abbreviation eventLoop := (eventLoop images width height threshold).
Local Abbreviation turnsLeft := (turnsLeft width).

Lemma asyncColumns_completion (remaining x : nat) (pixels : list Z) :
  remaining = (width - x)%nat ->
  completion (asyncColumns remaining x pixels)
  = fold_left (heatColumn images width height threshold)
              (seq x remaining) pixels
  /\ (turnsLeft (asyncColumns remaining x pixels) <= remaining)%nat.
Proof.
  revert x pixels.
  induction remaining as [| n IH]; intros x pixels Hn;
    cbn [asyncColumns seq fold_left].
  - split; [reflexivity | simpl; lia].
  - destruct (x mod 20 =? 0)%nat.
    + cbn [completion turnsLeft].
      replace (width - S x)%nat with n by lia. split; [reflexivity | lia].
    + destruct (IH (S x) (heatColumn images width height threshold pixels x))
        as [Hc Ht]; [lia |].
      split; [exact Hc | lia].
Qed.

Lemma resume_completion (a : asyncHeatMap) :
  completion (resume a) = completion a
  /\ (turnsLeft a = 0 \/ turnsLeft (resume a) < turnsLeft a)%nat.
Proof.
  destruct a as [x pixels | pixels]; simpl.
  - destruct (asyncColumns_completion (width - x) x pixels eq_refl) as [Hc Ht].
    split; [exact Hc | right; lia].
  - split; [reflexivity | now left].
Qed.

Lemma eventLoop_completion (turns : nat) (a : asyncHeatMap) :
  (turnsLeft a <= turns)%nat -> eventLoop turns a = Some (completion a).
Proof.
  revert a. induction turns as [| n IH]; intros a Hle.
  - destruct a; simpl in *; [lia | reflexivity].
  - destruct a as [x pixels | pixels]; [| reflexivity].
    cbn [eventLoop].
    destruct (resume_completion (Suspended x pixels)) as [Hc [Hz | Hlt]].
    + simpl in Hz. discriminate.
    + rewrite IH by lia. now rewrite Hc.
Qed.

End AsyncFacts.

(** ** The heat map *)

(** With the full set of [totalImages] buffers the stored grey level is
    the rescaled count of the specification, rounded to nearest with ties
    to even. *)
Lemma generateHeatMap_cell_full_set
    (images : list p5Image) (W H : nat) (t : Num.number)
    (pixels : list Z) (x y : nat) :
  length images = totalImages ->
  (x < W)%nat -> (y < H)%nat -> length pixels = (W * H * 4)%nat ->
  cell (generateHeatMap images W H t pixels) W x y
  = Some (specCellValue (sunnyCount images t x y) (length images)).
Proof.
  intros HN Hx Hy Hlen.
  rewrite generateHeatMap_cell by assumption.
  f_equal. rewrite HN.
  apply greyOfCount_closed_form. rewrite <- HN. apply sunnyCount_le_length.
Qed.

(** C1, on a partial load: one loaded image of one white pixel and the
    threshold 200.  The pixel is sunny in the only buffer, so the
    specification gives [round(1 / 1 * 255) = 255]; the loop rescales the
    count by [totalImages] and stores 3. *)
Theorem single_image_grey_level :
  sunnyCount [white1] (Num.of_Z 200) 0 0 = 1%nat
  /\ specCellValue 1 (length [white1]) = 255
  /\ imagesLoaded [white1] (Num.of_Z 200) = Some (1%nat, 1%nat, [3; 3; 3; 255])
  /\ cell [3; 3; 3; 255] 1 0 0 = Some 3.
Proof. vm_compute. repeat split; reflexivity. Qed.


Lemma sunny_past_the_end (t : Num.number) (img : p5Image) (x y : nat) :
  (length (img_pixels img) <= (x + y * img_width img) * 4 + 2)%nat ->
  sunny t img x y = false.
Proof.
  intros Hlen. unfold sunny, brightness.
  rewrite (lookup_ge_None_2 (img_pixels img) _ Hlen). cbn [Num.ToNumber].
  replace (Num.mul Num.lit_0_114 S754_nan) with S754_nan by reflexivity.
  match goal with
  | |- Num.gt (Num.add ?a S754_nan) t = false =>
      replace (Num.add a S754_nan) with S754_nan by (now destruct a)
  end.
  unfold Num.gt, SFltb. now destruct t.
Qed.


(** C7: with the buffers fixed and [t1 <= t2], no cell has a larger sunny
    count under [t2] than under [t1]; and for a set of at most
    [totalImages] buffers, as the loader provides, no cell has a larger
    grey level. *)
Theorem threshold_monotone
    (images : list p5Image) (W H : nat) (t1 t2 : Num.number)
    (pixels : list Z) (x y : nat) :
  Num.le t1 t2 = true ->
  (x < W)%nat -> (y < H)%nat -> length pixels = (W * H * 4)%nat ->
  (sunnyCount images t2 x y <= sunnyCount images t1 x y)%nat
  /\ ((length images <= totalImages)%nat ->
      exists v1 v2,
        cell (generateHeatMap images W H t1 pixels) W x y = Some v1
        /\ cell (generateHeatMap images W H t2 pixels) W x y = Some v2
        /\ v2 <= v1).
Proof.
  intros Hle Hx Hy Hlen.
  pose proof (sunnyCount_antitone images t1 t2 x y Hle) as Hcount.
  split; [exact Hcount |].
  intros HN. do 2 eexists.
  rewrite !generateHeatMap_cell by assumption.
  split; [reflexivity |]. split; [reflexivity |].
  apply greyOfCount_monotone; [exact Hcount |].
  pose proof (sunnyCount_le_length images t1 x y). lia.
Qed.

Lemma threshold_monotone_witness :
  (sunnyCount [grey210] (Num.of_Z 220) 0 0
   <= sunnyCount [grey210] (Num.of_Z 200) 0 0)%nat
  /\ ((length [grey210] <= totalImages)%nat ->
      exists v1 v2,
        cell (generateHeatMap [grey210] 1 1 (Num.of_Z 200) (createImage 1 1))
             1 0 0 = Some v1
        /\ cell (generateHeatMap [grey210] 1 1 (Num.of_Z 220) (createImage 1 1))
                1 0 0 = Some v2
        /\ v2 <= v1).
Proof.
  apply (threshold_monotone [grey210] 1 1 (Num.of_Z 200) (Num.of_Z 220)
           (createImage 1 1) 0 0).
  - vm_compute. reflexivity.
  - lia.
  - lia.
  - reflexivity.
Defined.


(** ** The rectangle score *)

Lemma fold_left_sum {A : Type} (body : Z -> A -> Z) (f : A -> Z) (l : list A) (a : Z) :
  (forall acc k, body acc k = acc + f k) ->
  fold_left body l a = a + sumZ (List.map f l).
Proof.
  intros Hbody. revert a. induction l as [| k l IH]; intros a; simpl.
  - lia.
  - rewrite IH, Hbody. lia.
Qed.

Lemma sumZ_zero {A : Type} (l : list A) : sumZ (List.map (fun _ => 0) l) = 0.
Proof. induction l as [| a l IH]; simpl; [reflexivity | exact IH]. Qed.

Lemma guarded_read (pixels : list Z) (W H : nat) (i j : Z) (score : Z) :
  (if (0 <=? i) && (i <? Z.of_nat W) && (0 <=? j) && (j <? Z.of_nat H)
   then score + default 0 (pixels !! Z.to_nat ((i + j * Z.of_nat W) * 4))
   else score)
  = score + gridValue pixels W H i j.
Proof.
  unfold gridValue, cell.
  destruct ((0 <=? i) && (i <? Z.of_nat W) && (0 <=? j) && (j <? Z.of_nat H))
    eqn:Hg; [| lia].
  rewrite !andb_true_iff in Hg. destruct Hg as [[[Hi _] Hj] _].
  apply Z.leb_le in Hi, Hj.
  replace (Z.to_nat ((i + j * Z.of_nat W) * 4))
    with ((Z.to_nat i + Z.to_nat j * W) * 4)%nat; [reflexivity |].
  rewrite Z2Nat.inj_mul, Z2Nat.inj_add, Z2Nat.inj_mul, Nat2Z.id by lia.
  reflexivity.
Qed.

Lemma rectangleScoreOn_sum (pixels : list Z) (W H : nat) (x y w h : Q) :
  rectangleScoreOn pixels W H x y w h = specScore pixels W H x y w h.
Proof.
  unfold rectangleScoreOn, specScore, rectSum, for_range.
  rewrite (fold_left_sum _
             (fun i => sumZ (List.map (gridValue pixels W H i)
                               (seqZ (Qfloor (y - h / 2))
                                     (Qfloor (y + h / 2) - Qfloor (y - h / 2)))))).
  - lia.
  - intros acc i.
    apply fold_left_sum. intros acc' j. apply guarded_read.
Qed.

(** On a pixel array of the size of the canvas every guarded read is
    inside the array. *)
Lemma guarded_read_defined (pixels : list Z) (W H : nat) (i j : Z) :
  length pixels = (W * H * 4)%nat ->
  0 <= i < Z.of_nat W -> 0 <= j < Z.of_nat H ->
  is_Some (pixels !! Z.to_nat ((i + j * Z.of_nat W) * 4)).
Proof.
  intros Hlen Hi Hj. apply lookup_lt_is_Some. rewrite Hlen. nia.
Qed.



(** C9: without a heat map the score of every rectangle is 0, the score
    it has on a heat map that is black everywhere. *)
Theorem score_without_heat_map (s : sketch) (x y w h : Q) :
  heatMap s = None ->
  calculateRectangleScore s x y w h = 0
  /\ calculateRectangleScore
       (mkSketch (width s) (height s)
                 (Some (createImage (width s) (height s))) (isLoading s)
                 (rectWidth s) (rectHeight s) (mouseX s) (mouseY s)
                 (movingRectangle s) (permanentRectangles s))
       x y w h = 0.
Proof.
  intros Hnone. unfold calculateRectangleScore. rewrite Hnone.
  split; [reflexivity |]. cbn [heatMap width height].
  rewrite rectangleScoreOn_sum. unfold specScore, rectSum.
  rewrite <- (sumZ_zero (seqZ (Qfloor (x - w / 2))
                              (Qfloor (x + w / 2) - Qfloor (x - w / 2)))).
  f_equal. apply map_ext. intros i.
  rewrite <- (sumZ_zero (seqZ (Qfloor (y - h / 2))
                              (Qfloor (y + h / 2) - Qfloor (y - h / 2)))).
  f_equal. apply map_ext. intros j.
  unfold gridValue, cell, createImage.
  destruct (_ && _); [| reflexivity].
  destruct (replicate _ 0 !! _) as [v |] eqn:Hv; [| reflexivity].
  apply lookup_replicate in Hv. simpl. tauto.
Qed.

Lemma score_without_heat_map_witness :
  calculateRectangleScore
    (mkSketch 5 5 None true 1 1 0 0 None []) 3 3 1 1 = 0
  /\ calculateRectangleScore
       (mkSketch 5 5 (Some (createImage 5 5)) true 1 1 0 0 None []) 3 3 1 1 = 0.
Proof.
  apply (score_without_heat_map (mkSketch 5 5 None true 1 1 0 0 None []) 3 3 1 1).
  reflexivity.
Defined.

(** ** One hill-climbing step *)

Lemma tryDirection_shift (s : sketch) (m : rect) (best : Z * (Q * Q)) (dir : Z * Z) :
  tryDirection s m best dir
  = if candidateOk s m dir && (scoreAt s m (shift m dir) >? fst best)
    then (scoreAt s m (shift m dir), shift m dir)
    else best.
Proof.
  unfold tryDirection, candidateOk, scoreAt, shift. simpl.
  destruct (inBounds s m _ _); [| reflexivity].
  simpl. now destruct (_ >? _).
Qed.

(** The loop over the directions keeps the first candidate of the
    greatest score above the starting one. *)
Lemma scan_directions (s : sketch) (m : rect) (ds : list (Z * Z))
    (bs : Z) (bp : Q * Q) :
  let r := fold_left (tryDirection s m) ds (bs, bp) in
  (forall d, In d ds -> candidateOk s m d = true ->
             scoreAt s m (shift m d) <= fst r)
  /\ ((r = (bs, bp))
      \/ exists before dir after,
           ds = before ++ dir :: after
           /\ candidateOk s m dir = true
           /\ r = (scoreAt s m (shift m dir), shift m dir)
           /\ bs < scoreAt s m (shift m dir)
           /\ forall d, In d before -> candidateOk s m d = true ->
                        scoreAt s m (shift m d) < scoreAt s m (shift m dir)).
Proof.
  revert bs bp. induction ds as [| d ds IH]; intros bs bp; cbn zeta.
  - split; [intros d [] | now left].
  - cbn [fold_left]. rewrite tryDirection_shift. cbn [fst].
    destruct (candidateOk s m d) eqn:Hok; cbn [andb].
    + destruct (scoreAt s m (shift m d) >? bs) eqn:Hgt.
      * apply Z.gtb_lt in Hgt.
        destruct (IH (scoreAt s m (shift m d)) (shift m d)) as [Hmax Hsel].
        destruct Hsel as [Hsame | (before & dir & after & -> & Hdir & Hr & Hlt & Hfirst)].
        -- rewrite Hsame in *. cbn [fst] in *. split.
           ++ intros d' [<- | Hin] Hok'; [lia | now apply Hmax].
           ++ right. exists [], d, ds. repeat split; trivial.
              intros d' [].
        -- rewrite Hr in *. cbn [fst] in *. split.
           ++ intros d' [<- | Hin] Hok'; [lia | now apply Hmax].
           ++ right. exists (d :: before), dir, after.
              repeat split; trivial; [lia |].
              intros d' [<- | Hin] Hok'; [lia | now apply Hfirst].
      * assert (Hle : scoreAt s m (shift m d) <= bs).
        { destruct (Z.gtb_spec (scoreAt s m (shift m d)) bs); [discriminate | lia]. }
        destruct (IH bs bp) as [Hmax Hsel].
        destruct Hsel as [Hsame | (before & dir & after & -> & Hdir & Hr & Hlt & Hfirst)].
        -- rewrite Hsame in *. cbn [fst] in *. split.
           ++ intros d' [<- | Hin] Hok'; [lia | now apply Hmax].
           ++ now left.
        -- rewrite Hr in *. cbn [fst] in *. split.
           ++ intros d' [<- | Hin] Hok'; [lia | now apply Hmax].
           ++ right. exists (d :: before), dir, after.
              repeat split; trivial.
              intros d' [<- | Hin] Hok'; [lia | now apply Hfirst].
    + destruct (IH bs bp) as [Hmax Hsel].
      destruct Hsel as [Hsame | (before & dir & after & -> & Hdir & Hr & Hlt & Hfirst)].
      * rewrite Hsame in *. cbn [fst] in *. split.
        -- intros d' [<- | Hin] Hok'; [congruence | now apply Hmax].
        -- now left.
      * rewrite Hr in *. cbn [fst] in *. split.
        -- intros d' [<- | Hin] Hok'; [congruence | now apply Hmax].
        -- right. exists (d :: before), dir, after.
           repeat split; trivial.
           intros d' [<- | Hin] Hok'; [congruence | now apply Hfirst].
Qed.

Lemma draw_searching (s : sketch) (pixels : list Z) (m : rect) :
  isLoading s = false -> heatMap s = Some pixels ->
  movingRectangle s = Some m -> r_searching m = true ->
  (exists before dir after,
      directions = before ++ dir :: after
      /\ candidateOk s m dir = true
      /\ r_score m < scoreAt s m (shift m dir)
      /\ (forall d, In d directions -> candidateOk s m d = true ->
                    scoreAt s m (shift m d) <= scoreAt s m (shift m dir))
      /\ (forall d, In d before -> candidateOk s m d = true ->
                    scoreAt s m (shift m d) < scoreAt s m (shift m dir))
      /\ draw s = movedTo s m dir)
  \/ ((forall d, In d directions -> candidateOk s m d = true ->
                 scoreAt s m (shift m d) <= r_score m)
      /\ draw s = frozen s m).
Proof.
  intros Hload Hmap Hmov Hsearch.
  unfold draw, hillClimbStep. rewrite Hload, Hmap, Hmov, Hsearch.
  destruct (scan_directions s m directions (r_score m) (r_x m, r_y m))
    as [Hmax Hsel].
  cbn zeta in Hmax, Hsel.
  destruct Hsel as [Hsame | (before & dir & after & Hsplit & Hdir & Hr & Hlt & Hfirst)].
  - right. rewrite Hsame in *. cbn [fst] in Hmax.
    rewrite Z.gtb_ltb, Z.ltb_irrefl.
    split; [exact Hmax | reflexivity].
  - left. exists before, dir, after. rewrite Hr in *. cbn [fst] in Hmax.
    replace (scoreAt s m (shift m dir) >? r_score m) with true
      by (symmetry; apply Z.gtb_lt; exact Hlt).
    repeat split; trivial.
Qed.

Lemma partlyOutside_excluded (s : sketch) (m : rect) (dir : Z * Z) :
  partlyOutside s m (shift m dir) -> candidateOk s m dir = false.
Proof.
  unfold partlyOutside, candidateOk, inBounds, Qltb.
  intros Hout. apply not_true_is_false. intros Hok.
  rewrite !andb_true_iff, !negb_true_iff in Hok.
  destruct Hok as [[[Hl Hr] Ht] Hb].
  apply Qle_bool_iff in Hl, Ht.
  assert (Hr' : ~ (inject_Z (Z.of_nat (width s))
                   <= fst (shift m dir) + r_w m / 2)%Q).
  { intros Hc. apply Qle_bool_iff in Hc. congruence. }
  assert (Hb' : ~ (inject_Z (Z.of_nat (height s))
                   <= snd (shift m dir) + r_h m / 2)%Q).
  { intros Hc. apply Qle_bool_iff in Hc. congruence. }
  destruct Hout as [Ho | [Ho | [Ho | Ho]]].
  - now apply Qlt_not_le in Ho.
  - apply Hr'. now apply Qlt_le_weak.
  - now apply Qlt_not_le in Ho.
  - apply Hb'. now apply Qlt_le_weak.
Qed.



(** The bounds test is strict on the right and on the bottom: a candidate
    whose right edge lies on the edge of the canvas is left out although
    it covers cells of the grid only. *)
Lemma flush_candidate_excluded :
  shift (mkRect (7 # 2) 2 1 1 0 true) (1, 0) = ((7 # 2) + 1, 2 + 0)%Q
  /\ ~ partlyOutside (peakSearch (7 # 2) 2) (mkRect (7 # 2) 2 1 1 0 true)
                     ((7 # 2) + 1, 2 + 0)%Q
  /\ candidateOk (peakSearch (7 # 2) 2) (mkRect (7 # 2) 2 1 1 0 true) (1, 0)
     = false.
Proof.
  split; [reflexivity |]. split; [| vm_compute; reflexivity].
  unfold partlyOutside. cbn [fst snd r_w r_h width height peakSearch].
  intros [Ho | [Ho | [Ho | Ho]]]; vm_compute in Ho; discriminate.
Qed.

(** ** The stored score *)

Lemma mousePressed_starts (s : sketch) :
  mouseInCanvas s = true ->
  scoreInvariant (mousePressed s)
  /\ exists m, movingRectangle (mousePressed s) = Some m
               /\ r_searching m = true.
Proof.
  intros Hin. unfold mousePressed. rewrite Hin. split.
  - intros m [= <-]. reflexivity.
  - eexists. split; reflexivity.
Qed.

Lemma draw_invariant (s : sketch) : scoreInvariant s -> scoreInvariant (draw s).
Proof.
  intros Hinv.
  destruct (isLoading s) eqn:Hload; [unfold draw; now rewrite Hload |].
  destruct (heatMap s) as [pixels |] eqn:Hmap;
    [| unfold draw; now rewrite Hload, Hmap].
  destruct (movingRectangle s) as [m |] eqn:Hmov;
    [| unfold draw, hillClimbStep; now rewrite Hload, Hmap, Hmov].
  destruct (r_searching m) eqn:Hsearch;
    [| unfold draw, hillClimbStep; now rewrite Hload, Hmap, Hmov, Hsearch].
  destruct (draw_searching s pixels m Hload Hmap Hmov Hsearch)
    as [(before & dir & after & _ & _ & _ & _ & _ & ->) | [_ ->]].
  - intros m' [= <-]. reflexivity.
  - intros m' [=].
Qed.

Lemma draw_score_increases (s : sketch) (m m' : rect) :
  movingRectangle s = Some m -> movingRectangle (draw s) = Some m' ->
  m' = m \/ (r_score m < r_score m' /\ r_searching m' = true).
Proof.
  intros Hmov Hmov'.
  destruct (isLoading s) eqn:Hload;
    [unfold draw in Hmov'; rewrite Hload in Hmov'; left; congruence |].
  destruct (heatMap s) as [pixels |] eqn:Hmap;
    [| unfold draw in Hmov'; rewrite Hload, Hmap in Hmov'; left; congruence].
  destruct (r_searching m) eqn:Hsearch.
  - destruct (draw_searching s pixels m Hload Hmap Hmov Hsearch)
      as [(before & dir & after & _ & _ & Hlt & _ & _ & Hd) | [_ Hd]];
      rewrite Hd in Hmov'.
    + right. injection Hmov' as <-. now split.
    + discriminate.
  - unfold draw, hillClimbStep in Hmov'.
    rewrite Hload, Hmap, Hmov, Hsearch in Hmov'. left. congruence.
Qed.

Lemma frames_invariant (n : nat) (s : sketch) :
  scoreInvariant s -> scoreInvariant (frames n s).
Proof.
  revert s. induction n as [| n IH]; intros s Hinv; simpl.
  - exact Hinv.
  - apply IH, draw_invariant, Hinv.
Qed.

(** C10: a click inside the canvas starts a search whose stored score is
    the score of its stored position on the current heat map; that
    remains so after any number of frames; and a frame that changes the
    rectangle in progress strictly increases its stored score. *)
Theorem search_score_invariant (s : sketch) (n : nat) :
  mouseInCanvas s = true ->
  (exists m0, movingRectangle (mousePressed s) = Some m0
              /\ r_searching m0 = true
              /\ r_score m0
                 = calculateRectangleScore (mousePressed s)
                     (r_x m0) (r_y m0) (r_w m0) (r_h m0))
  /\ scoreInvariant (frames n (mousePressed s))
  /\ (forall m m',
        movingRectangle (frames n (mousePressed s)) = Some m ->
        movingRectangle (draw (frames n (mousePressed s))) = Some m' ->
        m' = m \/ (r_score m < r_score m' /\ r_searching m' = true)).
Proof.
  intros Hin. destruct (mousePressed_starts s Hin) as [Hinv (m0 & Hm0 & Hs0)].
  split; [| split].
  - exists m0. repeat split; trivial. now apply Hinv.
  - now apply frames_invariant.
  - intros m m'. apply draw_score_increases.
Qed.

Lemma search_score_invariant_witness :
  (exists m0, movingRectangle (mousePressed (peakSearch 2 2)) = Some m0
              /\ r_searching m0 = true
              /\ r_score m0
                 = calculateRectangleScore (mousePressed (peakSearch 2 2))
                     (r_x m0) (r_y m0) (r_w m0) (r_h m0))
  /\ scoreInvariant (frames 2 (mousePressed (peakSearch 2 2)))
  /\ (forall m m',
        movingRectangle (frames 2 (mousePressed (peakSearch 2 2))) = Some m ->
        movingRectangle (draw (frames 2 (mousePressed (peakSearch 2 2)))) = Some m' ->
        m' = m \/ (r_score m < r_score m' /\ r_searching m' = true)).
Proof.
  apply (search_score_invariant (peakSearch 2 2) 2). reflexivity.
Defined.

(** ** Termination of the search *)

Lemma Qfloor_add_Z (q : Q) (d : Z) : Qfloor (q + inject_Z d) = Qfloor q + d.
Proof.
  destruct q as [n p]. unfold Qfloor, Qplus, inject_Z. simpl.
  rewrite Pos.mul_1_r, Z.mul_1_r. apply Z.div_add. discriminate.
Qed.

Lemma floor_low_shift (x w : Q) (d : Z) :
  Qfloor (x + inject_Z d - w / 2) = Qfloor (x - w / 2) + d.
Proof.
  rewrite <- Qfloor_add_Z. apply Qfloor_comp. unfold Qdiv. ring.
Qed.

Lemma floor_high_shift (x w : Q) (d : Z) :
  Qfloor (x + inject_Z d + w / 2) = Qfloor (x + w / 2) + d.
Proof.
  rewrite <- Qfloor_add_Z. apply Qfloor_comp. unfold Qdiv. ring.
Qed.

Lemma floor_nonneg (q : Q) : Qle_bool 0 q = true -> 0 <= Qfloor q.
Proof.
  intros Hq. apply Qle_bool_iff in Hq.
  change 0 with (Qfloor (inject_Z 0)). now apply Qfloor_resp_le.
Qed.

Lemma floor_below (q : Q) (n : Z) : Qltb q (inject_Z n) = true -> Qfloor q < n.
Proof.
  unfold Qltb. intros Hq. apply negb_true_iff in Hq.
  rewrite Zlt_Qlt. apply Qle_lt_trans with q; [apply Qfloor_le |].
  apply Qnot_le_lt. intros Hc. apply Qle_bool_iff in Hc. congruence.
Qed.

Lemma rectSum_empty (pixels : list Z) (W H : nat) (lox hix loy hiy : Z) :
  hix <= lox \/ hiy <= loy -> rectSum pixels W H lox hix loy hiy = 0.
Proof.
  unfold rectSum. intros [Hx | Hy].
  - rewrite (seqZ_nil lox) by lia. reflexivity.
  - rewrite (seqZ_nil loy) by lia. simpl. apply sumZ_zero.
Qed.

Lemma in_cells (W H : nat) (i j : Z) :
  In (i, j) (cells W H) <-> (0 <= i < Z.of_nat W /\ 0 <= j < Z.of_nat H).
Proof.
  unfold cells. rewrite in_prod_iff, <- !list_elem_of_In, !elem_of_seqZ. lia.
Qed.

Lemma length_cells (W H : nat) : length (cells W H) = (W * H)%nat.
Proof.
  unfold cells. rewrite List.length_prod, !length_seqZ, !Nat2Z.id. reflexivity.
Qed.

Lemma scoreAt_here (s : sketch) (pixels : list Z) (m : rect) :
  heatMap s = Some pixels ->
  scoreAt s m (r_x m, r_y m)
  = cellScore pixels (width s) (height s) (spanX m) (spanY m)
              (corner m (r_x m, r_y m)).
Proof.
  intros Hmap. unfold scoreAt, calculateRectangleScore. rewrite Hmap.
  rewrite rectangleScoreOn_sum.
  unfold specScore, cellScore, corner, spanX, spanY. cbn [fst snd].
  f_equal; lia.
Qed.

Lemma scoreAt_shift (s : sketch) (pixels : list Z) (m : rect) (d : Z * Z) :
  heatMap s = Some pixels ->
  scoreAt s m (shift m d)
  = cellScore pixels (width s) (height s) (spanX m) (spanY m)
              (corner m (shift m d)).
Proof.
  intros Hmap. unfold scoreAt, calculateRectangleScore. rewrite Hmap.
  rewrite rectangleScoreOn_sum.
  unfold specScore, cellScore, corner, spanX, spanY, shift. cbn [fst snd].
  rewrite !floor_low_shift, !floor_high_shift.
  f_equal; lia.
Qed.

Lemma filter_length_lt {A : Type} (f g : A -> bool) (l : list A) (a : A) :
  In a l -> f a = false -> g a = true ->
  (forall b, f b = true -> g b = true) ->
  (length (List.filter f l) < length (List.filter g l))%nat.
Proof.
  intros Hin Hfa Hga Hfg.
  induction l as [| b l IH]; simpl; [destruct Hin |].
  destruct Hin as [-> | Hin].
  - rewrite Hfa, Hga. simpl.
    pose proof (filter_length_mono f g l Hfg). lia.
  - specialize (IH Hin). destruct (f b) eqn:Hfb.
    + rewrite (Hfg b Hfb). simpl. lia.
    + destruct (g b); simpl; lia.
Qed.

Lemma spanX_stepTo (s : sketch) (m : rect) (dir : Z * Z) :
  spanX (stepTo s m dir) = spanX m.
Proof.
  unfold spanX, stepTo, shift. cbn [r_x r_w fst].
  rewrite floor_low_shift, floor_high_shift. lia.
Qed.

Lemma spanY_stepTo (s : sketch) (m : rect) (dir : Z * Z) :
  spanY (stepTo s m dir) = spanY m.
Proof.
  unfold spanY, stepTo, shift. cbn [r_y r_h snd].
  rewrite floor_low_shift, floor_high_shift. lia.
Qed.

(** An accepted move lands on a cell of the grid. *)
Lemma accepted_corner_in_grid (s : sketch) (pixels : list Z) (m : rect) (dir : Z * Z) :
  heatMap s = Some pixels ->
  r_score m = scoreAt s m (r_x m, r_y m) ->
  candidateOk s m dir = true ->
  r_score m < scoreAt s m (shift m dir) ->
  In (corner m (shift m dir)) (cells (width s) (height s)).
Proof.
  intros Hmap Hinv Hok Hlt.
  rewrite (scoreAt_here s pixels m Hmap) in Hinv.
  rewrite (scoreAt_shift s pixels m dir Hmap) in Hlt.
  assert (Hspan : 0 < spanX m /\ 0 < spanY m).
  { destruct (Z_lt_le_dec 0 (spanX m)) as [Hx | Hx];
      destruct (Z_lt_le_dec 0 (spanY m)) as [Hy | Hy]; [now split | | |];
      exfalso; unfold cellScore in Hinv, Hlt;
      rewrite rectSum_empty in Hinv by lia;
      rewrite rectSum_empty in Hlt by lia; lia. }
  unfold candidateOk, inBounds in Hok.
  rewrite !andb_true_iff in Hok. destruct Hok as [[[Hl Hr] Ht] Hb].
  apply floor_nonneg in Hl, Ht. apply floor_below in Hr, Hb.
  unfold shift in *. cbn [fst snd] in *.
  unfold corner. cbn [fst snd]. apply in_cells.
  rewrite floor_high_shift in Hr, Hb.
  rewrite floor_low_shift in Hl, Ht |- *. rewrite floor_low_shift.
  unfold spanX, spanY in Hspan. lia.
Qed.

Lemma move_decreases (s : sketch) (pixels : list Z) (m : rect) (dir : Z * Z) :
  heatMap s = Some pixels ->
  r_score m = scoreAt s m (r_x m, r_y m) ->
  candidateOk s m dir = true ->
  r_score m < scoreAt s m (shift m dir) ->
  (length (betterCells pixels (width s) (height s) (stepTo s m dir))
   < length (betterCells pixels (width s) (height s) m))%nat.
Proof.
  intros Hmap Hinv Hok Hlt.
  pose proof (accepted_corner_in_grid s pixels m dir Hmap Hinv Hok Hlt) as Hin.
  unfold betterCells. rewrite spanX_stepTo, spanY_stepTo.
  apply filter_length_lt with (a := corner m (shift m dir)); trivial.
  - cbn [stepTo r_score]. rewrite (scoreAt_shift s pixels m dir Hmap).
    apply Z.ltb_irrefl.
  - apply Z.ltb_lt. now rewrite <- (scoreAt_shift s pixels m dir Hmap).
  - intros c Hc. cbn [stepTo r_score] in Hc.
    apply Z.ltb_lt in Hc. apply Z.ltb_lt. lia.
Qed.

Lemma freeze_now (s : sketch) (m : rect) :
  movingRectangle s = Some m -> r_searching m = true ->
  r_score m = scoreAt s m (r_x m, r_y m) ->
  (forall d, In d directions -> candidateOk s m d = true ->
             scoreAt s m (shift m d) <= r_score m) ->
  draw s = frozen s m ->
  searchResult s m
    (mkRect (r_x m) (r_y m) (r_w m) (r_h m) (r_score m) false) 0.
Proof.
  intros Hmov Hsearch Hinv Hmax Hd. constructor.
  - intros j Hj. replace j with 0%nat by lia. exists m. now split.
  - cbn [frames]. now rewrite Hd.
  - reflexivity.
  - now split.
  - cbn [r_score]. lia.
  - exact Hinv.
  - exact Hmax.
Qed.

Lemma hill_climb_bounded (k : nat) :
  forall (s : sketch) (pixels : list Z) (m : rect),
    isLoading s = false -> heatMap s = Some pixels ->
    movingRectangle s = Some m -> r_searching m = true ->
    r_score m = scoreAt s m (r_x m, r_y m) ->
    (length (betterCells pixels (width s) (height s) m) <= k)%nat ->
    exists n final, (n <= k)%nat /\ searchResult s m final n.
Proof.
  induction k as [| k IH]; intros s pixels m Hload Hmap Hmov Hsearch Hinv Hk;
    destruct (draw_searching s pixels m Hload Hmap Hmov Hsearch)
      as [(before & dir & after & _ & Hok & Hlt & _ & _ & Hd) | [Hmax Hd]].
  - pose proof (move_decreases s pixels m dir Hmap Hinv Hok Hlt). lia.
  - exists 0%nat, (mkRect (r_x m) (r_y m) (r_w m) (r_h m) (r_score m) false).
    split; [lia |]. now apply freeze_now.
  - pose proof (move_decreases s pixels m dir Hmap Hinv Hok Hlt) as Hdec.
    assert (Hk' : (length (betterCells pixels (width (movedTo s m dir))
                             (height (movedTo s m dir)) (stepTo s m dir))
                   <= k)%nat).
    { cbn [width height movedTo setRectangles]. lia. }
    destruct (IH (movedTo s m dir) pixels (stepTo s m dir)
                 Hload Hmap eq_refl eq_refl eq_refl Hk')
      as (n & final & Hn & [Hrun Hfro Hsav Hsize Himp Hsc Hloc]).
    exists (S n), final. split; [lia |].
    constructor; trivial.
    + intros [| j] Hj.
      * exists m. now split.
      * cbn [frames]. rewrite Hd. apply Hrun. lia.
    + cbn [frames] in *. rewrite Hd. exact Hfro.
    + cbn [stepTo r_score] in Himp. lia.
  - exists 0%nat, (mkRect (r_x m) (r_y m) (r_w m) (r_h m) (r_score m) false).
    split; [lia |]. now apply freeze_now.
Qed.



(** ** The single peak *)

Lemma draw_idle (s : sketch) : movingRectangle s = None -> draw s = s.
Proof.
  intros Hnone. unfold draw, hillClimbStep. rewrite Hnone.
  destruct (isLoading s); [reflexivity |]. now destruct (heatMap s).
Qed.

Lemma frames_idle (n : nat) (s : sketch) :
  movingRectangle s = None -> frames n s = s.
Proof.
  intros Hnone. induction n as [| n IH]; simpl; [reflexivity |].
  now rewrite (draw_idle s Hnone).
Qed.

(** C6, refuted as stated: no number of frames leaves the search that
    starts at (0, 0) frozen with the score 255. *)
Lemma single_peak_not_reached :
  ~ exists n final,
      movingRectangle (frames n (peakSearch 0 0)) = None
      /\ permanentRectangles (frames n (peakSearch 0 0)) = [final]
      /\ r_score final = 255.
Proof.
  intros (n & final & Hnone & Hperm & Hscore).
  destruct n as [| n]; [discriminate |].
  cbn [frames] in Hperm.
  assert (Hd : draw (peakSearch 0 0)
               = setRectangles (peakSearch 0 0) None [mkRect 0 0 1 1 0 false])
    by (vm_compute; reflexivity).
  rewrite Hd, frames_idle in Hperm by reflexivity.
  injection Hperm as <-. discriminate.
Qed.

(** C6, as the code has it: the 1x1 rectangle at (0, 0) scores 0; its
    only admitted neighbour, to the south-east, scores 0 as well, so the
    first frame freezes the rectangle at (0, 0) with the score 0 and it
    stays so. *)
Theorem single_peak_freezes_at_start (n : nat) :
  movingRectangle (peakSearch 0 0) = Some (mkRect 0 0 1 1 0 true)
  /\ List.filter (candidateOk (peakSearch 0 0) (mkRect 0 0 1 1 0 true)) directions
     = [(1, 1)]
  /\ scoreAt (peakSearch 0 0) (mkRect 0 0 1 1 0 true)
             (shift (mkRect 0 0 1 1 0 true) (1, 1)) = 0
  /\ frames (S n) (peakSearch 0 0)
     = setRectangles (peakSearch 0 0) None [mkRect 0 0 1 1 0 false].
Proof.
  split; [vm_compute; reflexivity |].
  split; [vm_compute; reflexivity |].
  split; [vm_compute; reflexivity |].
  cbn [frames].
  assert (Hd : draw (peakSearch 0 0)
               = setRectangles (peakSearch 0 0) None [mkRect 0 0 1 1 0 false])
    by (vm_compute; reflexivity).
  rewrite Hd. now apply frames_idle.
Qed.

(** The rectangle that covers cell (0, 0), centred at (1/2, 1/2), is
    frozen at once as well: all its neighbours score 0. *)
Lemma single_peak_corner_cell_start :
  movingRectangle (peakSearch (1 # 2) (1 # 2))
  = Some (mkRect (1 # 2) (1 # 2) 1 1 0 true)
  /\ draw (peakSearch (1 # 2) (1 # 2))
     = setRectangles (peakSearch (1 # 2) (1 # 2)) None
         [mkRect (1 # 2) (1 # 2) 1 1 0 false].
Proof. split; vm_compute; reflexivity. Qed.

(** * Further properties *)

(** ** All four channels of the heat map *)

Section ChannelFacts.

Variable images : list p5Image.
Variable W H : nat.
Variable threshold : Num.number.

Local Abbreviation pixelAt := (heatPixel images W threshold).
Local Abbreviation column := (heatColumn images W H threshold).
Local Abbreviation grey x y := (greyOfCount (sunnyCount images threshold x y)).

Local Abbreviation channelValue := (channelValue images threshold).

Lemma channel_injective (x y x' y' k k' : nat) :
  (x < W)%nat -> (x' < W)%nat -> (k < 4)%nat -> (k' < 4)%nat ->
  ((x' + y' * W) * 4 + k' = (x + y * W) * 4 + k)%nat ->
  x' = x /\ y' = y /\ k' = k.
Proof.
  intros Hx Hx' Hk Hk' E.
  assert (E' : (x' + y' * W = x + y * W)%nat) by lia.
  destruct (Nat.lt_trichotomy y y') as [Hlt | [Heq | Hgt]].
  - exfalso. nia.
  - subst. repeat split; lia.
  - exfalso. nia.
Qed.

Lemma heatPixel_channel_same (x y k : nat) (pixels : list Z) :
  (k < 4)%nat -> ((x + y * W) * 4 + 3 < length pixels)%nat ->
  pixelAt x pixels y !! ((x + y * W) * 4 + k)%nat = Some (channelValue x y k).
Proof.
  intros Hk Hlen. unfold heatPixel, channelValue.
  destruct k as [| [| [| [| k]]]]; [| | | | lia].
  - rewrite Nat.add_0_r, !list_lookup_insert_ne by lia.
    apply list_lookup_insert_eq. lia.
  - rewrite !list_lookup_insert_ne by lia.
    apply list_lookup_insert_eq. rewrite length_insert. lia.
  - rewrite !list_lookup_insert_ne by lia.
    apply list_lookup_insert_eq. rewrite !length_insert. lia.
  - apply list_lookup_insert_eq. rewrite !length_insert. lia.
Qed.

Lemma heatPixel_channel_other (x y x' y' k : nat) (pixels : list Z) :
  (x < W)%nat -> (x' < W)%nat -> (k < 4)%nat -> (x', y') <> (x, y) ->
  pixelAt x pixels y !! ((x' + y' * W) * 4 + k)%nat
  = pixels !! ((x' + y' * W) * 4 + k)%nat.
Proof.
  intros Hx Hx' Hk Hne. unfold heatPixel.
  rewrite !list_lookup_insert_ne; try reflexivity;
    intros E; apply Hne;
    match type of E with
    | (_ + ?j = _)%nat =>
        destruct (channel_injective x y x' y' j k) as (-> & -> & _);
          try lia; reflexivity
    | _ =>
        destruct (channel_injective x y x' y' 0 k) as (-> & -> & _);
          try lia; reflexivity
    end.
Qed.

Lemma heatRows_channel_other (x x' y' k : nat) (ys : list nat) (pixels : list Z) :
  (x < W)%nat -> (x' < W)%nat -> (k < 4)%nat -> (x' <> x \/ ~ In y' ys) ->
  fold_left (pixelAt x) ys pixels !! ((x' + y' * W) * 4 + k)%nat
  = pixels !! ((x' + y' * W) * 4 + k)%nat.
Proof.
  intros Hx Hx' Hk. revert pixels.
  induction ys as [| y ys IH]; intros pixels Hout; simpl.
  - reflexivity.
  - rewrite IH by (simpl in Hout; tauto).
    apply heatPixel_channel_other; trivial.
    intros [= -> ->]. simpl in Hout. tauto.
Qed.

Lemma heatRows_channel_same (x y k : nat) (ys : list nat) (pixels : list Z) :
  (x < W)%nat -> (k < 4)%nat -> In y ys ->
  ((x + y * W) * 4 + 3 < length pixels)%nat ->
  fold_left (pixelAt x) ys pixels !! ((x + y * W) * 4 + k)%nat
  = Some (channelValue x y k).
Proof.
  intros Hx Hk. revert pixels.
  induction ys as [| y0 ys IH]; intros pixels Hin Hlen; simpl.
  - destruct Hin.
  - destruct (in_dec Nat.eq_dec y ys) as [Hys | Hys].
    + apply IH; trivial. now rewrite heatPixel_length.
    + destruct Hin as [-> | Hin]; [| contradiction].
      rewrite heatRows_channel_other by auto.
      now apply heatPixel_channel_same.
Qed.

Lemma heatColumns_channel_other (x' y' k : nat) (xs : list nat) (pixels : list Z) :
  Forall (fun x => (x < W)%nat) xs -> (x' < W)%nat -> (k < 4)%nat ->
  ~ In x' xs ->
  fold_left column xs pixels !! ((x' + y' * W) * 4 + k)%nat
  = pixels !! ((x' + y' * W) * 4 + k)%nat.
Proof.
  intros Hxs Hx' Hk. revert pixels.
  induction Hxs as [| x xs Hx Hxs IH]; intros pixels Hout; simpl.
  - reflexivity.
  - rewrite IH by (simpl in Hout; tauto).
    apply heatRows_channel_other; trivial.
    left. intros ->. apply Hout. now left.
Qed.

Lemma heatColumns_channel_same (x y k : nat) (xs : list nat) (pixels : list Z) :
  Forall (fun x => (x < W)%nat) xs -> In x xs -> (y < H)%nat -> (k < 4)%nat ->
  ((x + y * W) * 4 + 3 < length pixels)%nat ->
  fold_left column xs pixels !! ((x + y * W) * 4 + k)%nat
  = Some (channelValue x y k).
Proof.
  intros Hxs. revert pixels.
  induction Hxs as [| x0 xs Hx0 Hxs IH]; intros pixels Hin Hy Hk Hlen; simpl.
  - destruct Hin.
  - destruct (in_dec Nat.eq_dec x xs) as [Hin' | Hout].
    + apply IH; trivial. now rewrite heatColumn_length.
    + destruct Hin as [-> | Hin]; [| contradiction].
      rewrite heatColumns_channel_other by trivial.
      apply heatRows_channel_same; trivial.
      apply in_seq. lia.
Qed.

Lemma generateHeatMap_channel (x y k : nat) (pixels : list Z) :
  (x < W)%nat -> (y < H)%nat -> (k < 4)%nat ->
  length pixels = (W * H * 4)%nat ->
  generateHeatMap images W H threshold pixels !! ((x + y * W) * 4 + k)%nat
  = Some (channelValue x y k).
Proof.
  intros Hx Hy Hk Hlen. unfold generateHeatMap.
  apply heatColumns_channel_same; trivial.
  - apply List.Forall_forall. intros x0 Hin. apply in_seq in Hin. lia.
  - apply in_seq. lia.
  - rewrite Hlen. nia.
Qed.

(** Every index of the array is a channel of a pixel of the canvas. *)
Lemma index_is_channel (i : nat) :
  (i < W * H * 4)%nat ->
  exists x y k, (x < W)%nat /\ (y < H)%nat /\ (k < 4)%nat
                /\ i = ((x + y * W) * 4 + k)%nat.
Proof.
  intros Hi.
  assert (HW : (0 < W)%nat) by (destruct W; lia).
  exists ((i / 4) mod W)%nat, ((i / 4) / W)%nat, (i mod 4)%nat.
  assert (Hp : (i / 4 < W * H)%nat) by (apply Nat.Div0.div_lt_upper_bound; lia).
  repeat split.
  - apply Nat.mod_upper_bound. lia.
  - apply Nat.Div0.div_lt_upper_bound. lia.
  - apply Nat.mod_upper_bound. lia.
  - pose proof (Nat.div_mod_eq (i / 4) W) as E1.
    pose proof (Nat.div_mod_eq i 4) as E2. nia.
Qed.

End ChannelFacts.

Lemma ToUint8Clamp_range (f : Num.number) : 0 <= Num.ToUint8Clamp f <= 255.
Proof.
  unfold Num.ToUint8Clamp.
  destruct f as [s | [] | | [] m e]; try lia.
  destruct (0 <=? e) eqn:He.
  - apply Z.leb_le in He.
    assert (0 <= Z.pos m * 2 ^ e) by (apply Z.mul_nonneg_nonneg; [lia | apply Z.pow_nonneg; lia]).
    lia.
  - apply Z.leb_gt in He. unfold Num.round_half_even.
    assert (Hd : 0 < 2 ^ (- e)) by (apply Z.pow_pos_nonneg; lia).
    assert (Hq : 0 <= Z.pos m / 2 ^ (- e)) by (apply Z.div_pos; lia).
    destruct (2 * (Z.pos m mod 2 ^ (- e)) ?= 2 ^ (- e));
      try destruct (Z.even _); lia.
Qed.

(** X1: after [generateHeatMap] every pixel of the canvas is an opaque
    grey: red, green and blue hold the grey level of the count of the
    pixel, a byte, and alpha holds 255. *)
Theorem heat_map_is_opaque_grey
    (images : list p5Image) (W H : nat) (t : Num.number)
    (pixels : list Z) (x y : nat) :
  (x < W)%nat -> (y < H)%nat -> length pixels = (W * H * 4)%nat ->
  let g := greyOfCount (sunnyCount images t x y) in
  rgba (generateHeatMap images W H t pixels) W x y
  = [Some g; Some g; Some g; Some 255]
  /\ 0 <= g <= 255.
Proof.
  intros Hx Hy Hlen g. split; [| apply ToUint8Clamp_range].
  unfold rgba.
  rewrite <- (Nat.add_0_r ((x + y * W) * 4)) at 1.
  rewrite !generateHeatMap_channel by (trivial; lia).
  reflexivity.
Qed.

Lemma heat_map_is_opaque_grey_witness :
  rgba (generateHeatMap [grey210] 1 1 (Num.of_Z 200) (createImage 1 1)) 1 0 0
  = [Some (greyOfCount (sunnyCount [grey210] (Num.of_Z 200) 0 0));
     Some (greyOfCount (sunnyCount [grey210] (Num.of_Z 200) 0 0));
     Some (greyOfCount (sunnyCount [grey210] (Num.of_Z 200) 0 0));
     Some 255]
  /\ 0 <= greyOfCount (sunnyCount [grey210] (Num.of_Z 200) 0 0) <= 255.
Proof.
  apply (heat_map_is_opaque_grey [grey210] 1 1 (Num.of_Z 200) (createImage 1 1) 0 0);
    [lia | lia | reflexivity].
Defined.

Lemma generateHeatMap_any_start
    (images : list p5Image) (W H : nat) (t : Num.number)
    (pixels pixels' : list Z) :
  length pixels = (W * H * 4)%nat -> length pixels' = (W * H * 4)%nat ->
  generateHeatMap images W H t pixels = generateHeatMap images W H t pixels'.
Proof.
  intros Hp Hp'. apply list_eq. intros i.
  destruct (Nat.lt_ge_cases i (W * H * 4)) as [Hi | Hi].
  - destruct (index_is_channel W H i Hi) as (x & y & k & Hx & Hy & Hk & ->).
    now rewrite !generateHeatMap_channel.
  - rewrite !lookup_ge_None_2; trivial;
      rewrite generateHeatMap_length; lia.
Qed.

(** X2: [generateHeatMap] overwrites the whole array: its result does not
    depend on what the array of the canvas size held before, so running it
    again changes nothing. *)
Theorem generateHeatMap_overwrites
    (images : list p5Image) (W H : nat) (t : Num.number)
    (pixels pixels' : list Z) :
  length pixels = (W * H * 4)%nat -> length pixels' = (W * H * 4)%nat ->
  generateHeatMap images W H t pixels = generateHeatMap images W H t pixels'
  /\ generateHeatMap images W H t (generateHeatMap images W H t pixels)
     = generateHeatMap images W H t pixels.
Proof.
  intros Hlen Hlen'. split; [now apply generateHeatMap_any_start |].
  apply generateHeatMap_any_start; trivial.
  now rewrite generateHeatMap_length.
Qed.

Lemma generateHeatMap_overwrites_witness :
  generateHeatMap [grey210] 1 1 (Num.of_Z 200) (createImage 1 1)
  = generateHeatMap [grey210] 1 1 (Num.of_Z 200) [7; 7; 7; 7]
  /\ generateHeatMap [grey210] 1 1 (Num.of_Z 200)
       (generateHeatMap [grey210] 1 1 (Num.of_Z 200) (createImage 1 1))
     = generateHeatMap [grey210] 1 1 (Num.of_Z 200) (createImage 1 1).
Proof.
  apply (generateHeatMap_overwrites [grey210] 1 1 (Num.of_Z 200)
           (createImage 1 1) [7; 7; 7; 7]); reflexivity.
Defined.

(** ** Order of the images, shade and full sun *)

Lemma fold_left_pointwise {A B : Type} (f g : A -> B -> A) (l : list B) (a : A) :
  (forall a b, f a b = g a b) -> fold_left f l a = fold_left g l a.
Proof.
  intros Hfg. revert a. induction l as [| b l IH]; intros a; simpl.
  - reflexivity.
  - now rewrite Hfg, IH.
Qed.

Lemma sunnyCount_Permutation
    (images images' : list p5Image) (t : Num.number) (x y : nat) :
  Permutation images images' ->
  sunnyCount images t x y = sunnyCount images' t x y.
Proof.
  intros Hp. rewrite !sunnyCount_filter.
  induction Hp as [| a l l' Hp IH | a b l | l l' l'' Hp IH Hp' IH']; simpl.
  - reflexivity.
  - destruct (sunny t a x y); simpl; now rewrite IH.
  - destruct (sunny t a x y), (sunny t b x y); reflexivity.
  - now rewrite IH.
Qed.



Lemma sunnyCount_none (images : list p5Image) (t : Num.number) (x y : nat) :
  (forall img, In img images -> sunny t img x y = false) ->
  sunnyCount images t x y = 0%nat.
Proof.
  intros Hall. rewrite sunnyCount_filter.
  induction images as [| img l IH]; simpl; [reflexivity |].
  rewrite (Hall img) by now left. apply IH. intros i Hi. apply Hall. now right.
Qed.

Lemma sunnyCount_all (images : list p5Image) (t : Num.number) (x y : nat) :
  (forall img, In img images -> sunny t img x y = true) ->
  sunnyCount images t x y = length images.
Proof.
  intros Hall. rewrite sunnyCount_filter.
  induction images as [| img l IH]; simpl; [reflexivity |].
  rewrite (Hall img) by now left. simpl. f_equal.
  apply IH. intros i Hi. apply Hall. now right.
Qed.

(** X4: a pixel that is sunny in no image is black in the heat map; with
    all [totalImages] images loaded, a pixel that is sunny in every image
    is white. *)
Theorem shade_is_black_and_full_sun_is_white
    (images : list p5Image) (W H : nat) (t : Num.number)
    (pixels : list Z) (x y : nat) :
  (x < W)%nat -> (y < H)%nat -> length pixels = (W * H * 4)%nat ->
  ((forall img, In img images -> sunny t img x y = false) ->
   cell (generateHeatMap images W H t pixels) W x y = Some 0)
  /\ (length images = totalImages ->
      (forall img, In img images -> sunny t img x y = true) ->
      cell (generateHeatMap images W H t pixels) W x y = Some 255).
Proof.
  intros Hx Hy Hlen. split.
  - intros Hall. rewrite generateHeatMap_cell by assumption.
    now rewrite (sunnyCount_none images t x y Hall).
  - intros HN Hall. rewrite generateHeatMap_cell by assumption.
    rewrite (sunnyCount_all images t x y Hall), HN. reflexivity.
Qed.

Lemma shade_is_black_and_full_sun_is_white_witness :
  ((forall img, In img [grey210] -> sunny (Num.of_Z 220) img 0 0 = false) ->
   cell (generateHeatMap [grey210] 1 1 (Num.of_Z 220) (createImage 1 1)) 1 0 0
   = Some 0)
  /\ (length [grey210] = totalImages ->
      (forall img, In img [grey210] -> sunny (Num.of_Z 220) img 0 0 = true) ->
      cell (generateHeatMap [grey210] 1 1 (Num.of_Z 220) (createImage 1 1)) 1 0 0
      = Some 255).
Proof.
  apply (shade_is_black_and_full_sun_is_white [grey210] 1 1 (Num.of_Z 220)
           (createImage 1 1) 0 0); [lia | lia | reflexivity].
Defined.

(** ** The keyboard *)

Lemma sameNumber_eq (a b : Num.number) : sameNumber a b = true -> a = b.
Proof.
  destruct a as [s | s | | s m e], b as [s' | s' | | s' m' e'];
    simpl; try discriminate; try reflexivity.
  - intros E. apply Bool.eqb_prop in E. now subst.
  - intros E. apply Bool.eqb_prop in E. now subst.
  - intros E. rewrite !andb_true_iff in E. destruct E as [[Es Em] Ee].
    apply Bool.eqb_prop in Es. apply Pos.eqb_eq in Em. apply Z.eqb_eq in Ee.
    now subst.
Qed.

Lemma in_bytes (k : Z) : 0 <= k <= 255 -> In k (seqZ 0 256).
Proof. intros Hk. apply list_elem_of_In, elem_of_seqZ. lia. Qed.

Lemma threshold_up_table :
  forallb (fun k =>
             sameNumber
               (Math_min (Num.add (Num.of_Z k) (Num.of_Z 10)) (Num.of_Z 255))
               (Num.of_Z (Z.min (k + 10) 255))
             && Num.le (Num.of_Z k) (Num.of_Z (Z.min (k + 10) 255)))
          (seqZ 0 256) = true.
Proof. vm_compute. reflexivity. Qed.

Lemma threshold_down_table :
  forallb (fun k =>
             sameNumber
               (Math_max (Num.sub (Num.of_Z k) (Num.of_Z 10)) (Num.of_Z 0))
               (Num.of_Z (Z.max (k - 10) 0))
             && Num.le (Num.of_Z (Z.max (k - 10) 0)) (Num.of_Z k))
          (seqZ 0 256) = true.
Proof. vm_compute. reflexivity. Qed.

Lemma threshold_up (k : Z) :
  0 <= k <= 255 ->
  Math_min (Num.add (Num.of_Z k) (Num.of_Z 10)) (Num.of_Z 255)
  = Num.of_Z (Z.min (k + 10) 255)
  /\ Num.le (Num.of_Z k) (Num.of_Z (Z.min (k + 10) 255)) = true.
Proof.
  intros Hk.
  pose proof (proj1 (forallb_forall _ _) threshold_up_table k (in_bytes k Hk)) as E.
  cbv beta in E. apply andb_true_iff in E. destruct E as [E1 E2].
  split; [now apply sameNumber_eq | exact E2].
Qed.

Lemma threshold_down (k : Z) :
  0 <= k <= 255 ->
  Math_max (Num.sub (Num.of_Z k) (Num.of_Z 10)) (Num.of_Z 0)
  = Num.of_Z (Z.max (k - 10) 0)
  /\ Num.le (Num.of_Z (Z.max (k - 10) 0)) (Num.of_Z k) = true.
Proof.
  intros Hk.
  pose proof (proj1 (forallb_forall _ _) threshold_down_table k (in_bytes k Hk)) as E.
  cbv beta in E. apply andb_true_iff in E. destruct E as [E1 E2].
  split; [now apply sameNumber_eq | exact E2].
Qed.

Lemma threshold_regenerate (a : studio) : threshold (regenerate a) = threshold a.
Proof. unfold regenerate. now destruct (heatMap (sketchOf a)). Qed.

Lemma keyPressed_threshold (key : keyEvent) (a : studio) (k : Z) :
  thresholdIs a k -> 0 <= k <= 255 ->
  thresholdIs (keyPressed key a) (thresholdAfter key k).
Proof.
  unfold thresholdIs. intros Ht Hk.
  destruct key; cbn [keyPressed thresholdAfter]; trivial.
  - rewrite threshold_regenerate. cbn [threshold setThreshold]. rewrite Ht.
    now apply threshold_up.
  - rewrite threshold_regenerate. cbn [threshold setThreshold]. rewrite Ht.
    now apply threshold_down.
Qed.

(** X5: under any sequence of keys the threshold of src/sketch.js stays an
    integer between 0 and 255; from a multiple of 5, as the initial 200, it
    stays a multiple of 5. *)
Theorem threshold_stays_a_byte (keys : list keyEvent) (a : studio) (k : Z) :
  thresholdIs a k -> 0 <= k <= 255 ->
  exists k',
    thresholdIs (keysPressed keys a) k'
    /\ 0 <= k' <= 255
    /\ (k mod 5 = 0 -> k' mod 5 = 0).
Proof.
  revert a k. induction keys as [| key keys IH]; intros a k Ht Hk; unfold keysPressed; simpl.
  - exists k. auto.
  - pose proof (keyPressed_threshold key a k Ht Hk) as Ht'.
    assert (Hk' : 0 <= thresholdAfter key k <= 255)
      by (destruct key; simpl; lia).
    destruct (IH _ _ Ht' Hk') as (k' & Hk1 & Hk2 & Hk3).
    exists k'. repeat split; trivial; try lia.
    intros H5. apply Hk3.
    destruct key; simpl; trivial.
    + destruct (Z.min_spec (k + 10) 255) as [[_ ->] | [_ ->]];
        [rewrite <- Z.add_mod_idemp_l, H5 by lia |]; reflexivity.
    + destruct (Z.max_spec (k - 10) 0) as [[_ ->] | [_ ->]]; [reflexivity |].
      rewrite <- Zminus_mod_idemp_l, H5. reflexivity.
Qed.

Lemma threshold_stays_a_byte_witness :
  exists k',
    thresholdIs (keysPressed [UP_ARROW; UP_ARROW; DOWN_ARROW] initialStudio) k'
    /\ 0 <= k' <= 255
    /\ (200 mod 5 = 0 -> k' mod 5 = 0).
Proof.
  apply (threshold_stays_a_byte [UP_ARROW; UP_ARROW; DOWN_ARROW] initialStudio 200);
    [reflexivity | lia].
Defined.

Lemma keyPressed_heatMapCurrent (key : keyEvent) (a : studio) :
  heatMapCurrent a -> heatMapCurrent (keyPressed key a).
Proof.
  unfold heatMapCurrent. intros Hc.
  assert (Hregen : forall t,
            heatMapCurrent (regenerate (setThreshold a t))).
  { intros t. unfold heatMapCurrent, regenerate.
    cbn [sketchOf setThreshold images threshold]. rewrite Hc.
    cbn [sketchOf withSketch setHeatMap heatMap width height images threshold].
    f_equal. apply generateHeatMap_any_start.
    - rewrite generateHeatMap_length. unfold createImage.
      now rewrite length_replicate.
    - unfold createImage. now rewrite length_replicate. }
  destruct key; cbn [keyPressed]; trivial; try apply Hregen.
Qed.

(** X6: in src/sketch.js the heat map on display is never stale: once it
    is the heat map of the images and of the threshold, it remains so
    under any sequence of keys. *)
Theorem heat_map_follows_threshold (keys : list keyEvent) (a : studio) :
  heatMapCurrent a ->
  heatMapCurrent (keysPressed keys a).
Proof.
  revert a. induction keys as [| key keys IH]; intros a Hc; unfold keysPressed; simpl.
  - exact Hc.
  - apply IH. now apply keyPressed_heatMapCurrent.
Qed.

(** X7: in src/sketch.js, with at most [totalImages] images, the up arrow
    never makes a cell of the heat map brighter and the down arrow never
    makes it darker. *)
Theorem arrow_keys_are_monotone (a : studio) (k : Z) (x y : nat) :
  heatMapCurrent a -> thresholdIs a k -> 0 <= k <= 255 ->
  (length (images a) <= totalImages)%nat ->
  (x < width (sketchOf a))%nat -> (y < height (sketchOf a))%nat ->
  exists v up down,
    cellOf (sketchOf a) x y = Some v
    /\ cellOf (sketchOf (keyPressed UP_ARROW a)) x y = Some up
    /\ cellOf (sketchOf (keyPressed DOWN_ARROW a)) x y = Some down
    /\ up <= v <= down.
Proof.
  intros Hc Ht Hk HN Hx Hy.
  pose proof (keyPressed_heatMapCurrent UP_ARROW a Hc) as Hup.
  pose proof (keyPressed_heatMapCurrent DOWN_ARROW a Hc) as Hdown.
  pose proof (keyPressed_threshold UP_ARROW a k Ht Hk) as Tup.
  pose proof (keyPressed_threshold DOWN_ARROW a k Ht Hk) as Tdown.
  unfold heatMapCurrent, thresholdIs in *. unfold cellOf.
  rewrite Hc, Hup, Hdown, Ht, Tup, Tdown.
  assert (Hs : forall key,
            width (sketchOf (keyPressed key a)) = width (sketchOf a)
            /\ height (sketchOf (keyPressed key a)) = height (sketchOf a)
            /\ images (keyPressed key a) = images a).
  { intros key. destruct key; cbn [keyPressed]; auto;
      unfold regenerate; cbn [sketchOf setThreshold images threshold];
      destruct (heatMap (sketchOf a)); auto. }
  destruct (Hs UP_ARROW) as (-> & -> & ->).
  destruct (Hs DOWN_ARROW) as (-> & -> & ->).
  assert (Hblank : length (createImage (width (sketchOf a)) (height (sketchOf a)))
                   = (width (sketchOf a) * height (sketchOf a) * 4)%nat)
    by (unfold createImage; now rewrite length_replicate).
  do 3 eexists. rewrite !generateHeatMap_cell by assumption.
  repeat split; try reflexivity; cbn [thresholdAfter].
  - apply greyOfCount_monotone.
    + apply sunnyCount_antitone. now apply threshold_up.
    + pose proof (sunnyCount_le_length (images a) (Num.of_Z k) x y). lia.
  - apply greyOfCount_monotone.
    + apply sunnyCount_antitone. now apply threshold_down.
    + pose proof (sunnyCount_le_length (images a)
                    (Num.of_Z (Z.max (k - 10) 0)) x y). lia.
Qed.

(** ** The size of the rectangle *)

Lemma maxQ_lower (x : Q) : (1 <= maxQ 1 x)%Q.
Proof.
  unfold maxQ. destruct (Qle_bool 1 x) eqn:E.
  - now apply Qle_bool_iff.
  - apply Qle_refl.
Qed.

Lemma Qle_add_step (x c : Q) : (1 <= x)%Q -> (0 <= c)%Q -> (1 <= x + c)%Q.
Proof.
  intros Hx Hc. apply Qle_trans with (x + 0)%Q.
  - now rewrite Qplus_0_r.
  - apply Qplus_le_r. exact Hc.
Qed.

Lemma keyPressed_size (key : keyEvent) (a : studio) :
  (1 <= rectWidth (sketchOf a))%Q -> (1 <= rectHeight (sketchOf a))%Q ->
  (1 <= rectWidth (sketchOf (keyPressed key a)))%Q
  /\ (1 <= rectHeight (sketchOf (keyPressed key a)))%Q.
Proof.
  intros Hw Hh.
  destruct key; cbn [keyPressed]; auto.
  - unfold regenerate. cbn [sketchOf setThreshold].
    now destruct (heatMap (sketchOf a)).
  - unfold regenerate. cbn [sketchOf setThreshold].
    now destruct (heatMap (sketchOf a)).
  - unfold growRectangle.
    cbn [sketchOf withSketch setRectSize rectWidth rectHeight].
    split; apply Qle_add_step; trivial; destruct (isVertical a); discriminate.
  - unfold shrinkRectangle.
    cbn [sketchOf withSketch setRectSize rectWidth rectHeight].
    split; apply maxQ_lower.
Qed.

(** X8: a rectangle at least one pixel wide and high stays so under any
    sequence of keys; the minus key alone brings any rectangle there. *)
Theorem rectangle_stays_at_least_one_pixel (keys : list keyEvent) (a : studio) :
  ((1 <= rectWidth (sketchOf a))%Q -> (1 <= rectHeight (sketchOf a))%Q ->
   (1 <= rectWidth (sketchOf (keysPressed keys a)))%Q
   /\ (1 <= rectHeight (sketchOf (keysPressed keys a)))%Q)
  /\ (1 <= rectWidth (sketchOf (keyPressed KEY_MINUS a)))%Q
  /\ (1 <= rectHeight (sketchOf (keyPressed KEY_MINUS a)))%Q.
Proof.
  split.
  - revert a. induction keys as [| key keys IH]; intros a Hw Hh;
      unfold keysPressed; simpl; [now split |].
    destruct (keyPressed_size key a Hw Hh) as [Hw' Hh']. now apply IH.
  - cbn [keyPressed]. unfold shrinkRectangle.
    cbn [sketchOf withSketch setRectSize rectWidth rectHeight].
    split; apply maxQ_lower.
Qed.

Lemma maxQ_above (x : Q) : (1 <= x)%Q -> maxQ 1 x = x.
Proof.
  intros Hx. unfold maxQ. apply Qle_bool_iff in Hx. now rewrite Hx.
Qed.



Lemma heat_map_follows_threshold_witness :
  heatMapCurrent (keysPressed [UP_ARROW; KEY_PLUS; DOWN_ARROW] demoStudio).
Proof.
  apply (heat_map_follows_threshold [UP_ARROW; KEY_PLUS; DOWN_ARROW] demoStudio).
  reflexivity.
Defined.

Lemma arrow_keys_are_monotone_witness :
  exists v up down,
    cellOf (sketchOf demoStudio) 0 0 = Some v
    /\ cellOf (sketchOf (keyPressed UP_ARROW demoStudio)) 0 0 = Some up
    /\ cellOf (sketchOf (keyPressed DOWN_ARROW demoStudio)) 0 0 = Some down
    /\ up <= v <= down.
Proof.
  apply (arrow_keys_are_monotone demoStudio 200 0 0);
    [reflexivity | reflexivity | lia | cbn; unfold totalImages; lia
     | cbn; lia | cbn; lia].
Defined.

(** ** Loading the images *)

Lemma imageCallback_before_last (a : studio) (e : loadEvent) :
  (S (loaded a) <> totalImages)%nat ->
  imageCallback a e
  = mkStudio (sketchOf a)
             (images a ++ match e with LoadSuccess img => [img] | LoadFailure => [] end)
             (S (loaded a)) (threshold a) (isVertical a) (loadingStage a)
             (generating a).
Proof.
  intros Hne. unfold imageCallback.
  destruct e as [img |]; cbn [loaded];
    rewrite (proj2 (Nat.eqb_neq _ _) Hne); [reflexivity |].
  now rewrite app_nil_r.
Qed.

Lemma loads_before_last (es : list loadEvent) (a : studio) :
  (loaded a + length es < totalImages)%nat ->
  loads es a
  = mkStudio (sketchOf a) (images a ++ successes es) (loaded a + length es)
             (threshold a) (isVertical a) (loadingStage a) (generating a).
Proof.
  unfold loads. revert a.
  induction es as [| e es IH]; intros a Hlt; simpl.
  - rewrite app_nil_r, Nat.add_0_r. now destruct a.
  - simpl in Hlt. rewrite imageCallback_before_last by lia.
    rewrite IH by (cbn [loaded]; lia).
    cbn [sketchOf images loaded threshold isVertical loadingStage generating].
    rewrite <- app_assoc. f_equal. lia.
Qed.

Lemma settle_keeps (a : studio) (r : asyncHeatMap) :
  images (settle a r) = images a /\ loaded (settle a r) = loaded a
  /\ threshold (settle a r) = threshold a
  /\ width (sketchOf (settle a r)) = width (sketchOf a)
  /\ height (sketchOf (settle a r)) = height (sketchOf a).
Proof. destruct r; repeat split. Qed.

Lemma allAttempted_keeps (a : studio) :
  images (allAttempted a) = images a /\ loaded (allAttempted a) = loaded a
  /\ threshold (allAttempted a) = threshold a.
Proof.
  unfold allAttempted. destruct (images a) as [| img0 rest] eqn:E.
  - unfold withSketch. cbn [images loaded threshold]. auto.
  - match goal with
    | |- context [settle ?b ?r] =>
        destruct (settle_keeps b r) as (-> & -> & -> & _)
    end.
    cbn [images loaded threshold]. auto.
Qed.

Lemma length_successes (es : list loadEvent) :
  (length (successes es) <= length es)%nat.
Proof.
  induction es as [| [img |] es IH]; simpl; lia.
Qed.

(** X10: while the loads complete, in any order and with any failures,
    [loaded] counts the callbacks and [images] holds exactly the images
    that loaded, at most [totalImages]; before the last callback nothing
    else changes. *)
Theorem loading_counts (es : list loadEvent) (a : studio) :
  loaded a = 0%nat -> images a = [] ->
  (length es <= totalImages)%nat ->
  loaded (loads es a) = length es
  /\ images (loads es a) = successes es
  /\ (length (images (loads es a)) <= totalImages)%nat
  /\ ((length es < totalImages)%nat ->
      sketchOf (loads es a) = sketchOf a
      /\ generating (loads es a) = generating a).
Proof.
  intros Hl Hi Hlen.
  assert (Hcount : loaded (loads es a) = length es
                   /\ images (loads es a) = successes es).
  { destruct (Nat.lt_ge_cases (length es) totalImages) as [Hlt | Hge].
    - rewrite loads_before_last by lia. cbn. rewrite Hl, Hi. now split.
    - destruct (exists_last (l := es)) as (es' & e & ->).
      { intros ->. simpl in Hge. unfold totalImages in Hge. lia. }
      rewrite length_app in *. simpl in *.
      unfold loads. rewrite fold_left_app. simpl.
      fold (loads es' a). rewrite loads_before_last by lia.
      unfold imageCallback.
      destruct e as [img |]; cbn [loaded];
        (replace (S (loaded a + length es') =? totalImages)%nat with true
          by (symmetry; apply Nat.eqb_eq; lia));
        match goal with
        | |- context [allAttempted ?b] =>
            destruct (allAttempted_keeps b) as (-> & -> & _)
        end; cbn [images loaded]; rewrite Hl, Hi; simpl.
      + unfold successes. rewrite flat_map_app. simpl.
        split; [lia | reflexivity].
      + unfold successes. rewrite flat_map_app. simpl.
        rewrite app_nil_r. split; [lia | reflexivity]. }
  destruct Hcount as [Hc1 Hc2]. repeat split; trivial.
  - rewrite Hc2. pose proof (length_successes es). lia.
  - rewrite loads_before_last by lia. reflexivity.
  - rewrite loads_before_last by lia. reflexivity.
Qed.

Lemma loading_counts_witness :
  loaded (loads [LoadSuccess white1; LoadFailure] initialStudio) = 2%nat
  /\ images (loads [LoadSuccess white1; LoadFailure] initialStudio)
     = successes [LoadSuccess white1; LoadFailure]
  /\ (length (images (loads [LoadSuccess white1; LoadFailure] initialStudio))
      <= totalImages)%nat
  /\ ((2 < totalImages)%nat ->
      sketchOf (loads [LoadSuccess white1; LoadFailure] initialStudio)
      = sketchOf initialStudio
      /\ generating (loads [LoadSuccess white1; LoadFailure] initialStudio)
         = generating initialStudio).
Proof.
  apply (loading_counts [LoadSuccess white1; LoadFailure] initialStudio);
    [reflexivity | reflexivity | simpl; unfold totalImages; lia].
Defined.

Lemma timerTurns_idle (n : nat) (a : studio) :
  generating a = None -> timerTurns n a = a.
Proof.
  intros Hg. induction n as [| n IH]; simpl; [reflexivity |].
  unfold timerTurn. now rewrite Hg.
Qed.

Lemma timerTurns_settle (n : nat) :
  forall (base : studio) (r : asyncHeatMap),
    (turnsLeft (width (sketchOf base)) r <= n)%nat ->
    timerTurns n (settle base r)
    = committed base
        (completion (images base) (width (sketchOf base))
                    (height (sketchOf base)) (threshold base) r).
Proof.
  induction n as [| n IH]; intros base r Hle.
  - destruct r as [x px | px]; simpl in Hle; [lia | reflexivity].
  - destruct r as [x px | px].
    + cbn [timerTurns]. unfold timerTurn at 1.
      cbn [settle generating images sketchOf threshold].
      destruct (resume_completion (images base) (width (sketchOf base))
                  (height (sketchOf base)) (threshold base) (Suspended x px))
        as [Hc [Hz | Hlt]]; [simpl in Hz; discriminate |].
      rewrite <- Hc.
      apply (IH base). lia.
    + apply timerTurns_idle. reflexivity.
Qed.

Lemma loads_last (es : list loadEvent) (a : studio) :
  loaded a = 0%nat -> images a = [] -> length es = totalImages ->
  loads es a
  = allAttempted
      (mkStudio (sketchOf a) (successes es) totalImages (threshold a)
                (isVertical a) (loadingStage a) (generating a)).
Proof.
  intros Hl Hi Hlen.
  destruct (exists_last (l := es)) as (es' & e & ->).
  { intros ->. discriminate. }
  rewrite length_app in Hlen. simpl in Hlen.
  unfold loads. rewrite fold_left_app. simpl.
  fold (loads es' a). rewrite loads_before_last by lia.
  unfold imageCallback, successes. rewrite flat_map_app. fold (successes es').
  rewrite Hl, Hi. simpl (0 + _)%nat. simpl ([] ++ _).
  destruct e as [img |]; cbn [loaded];
    (replace (S (length es') =? totalImages)%nat with true
      by (symmetry; apply Nat.eqb_eq; lia));
    cbn [sketchOf images threshold isVertical loadingStage generating flat_map];
    rewrite ?app_nil_r; do 2 f_equal; lia.
Qed.


(** X12: when every load has failed the sketch leaves the loading screen
    without a heat map: nothing is generated, a frame changes nothing and
    every rectangle scores 0. *)
Theorem loading_without_images (es : list loadEvent) (a : studio) :
  loaded a = 0%nat -> images a = [] -> length es = totalImages ->
  successes es = [] -> heatMap (sketchOf a) = None ->
  isLoading (sketchOf (loads es a)) = false
  /\ heatMap (sketchOf (loads es a)) = None
  /\ generating (loads es a) = generating a
  /\ draw (sketchOf (loads es a)) = sketchOf (loads es a)
  /\ forall x y w h, calculateRectangleScore (sketchOf (loads es a)) x y w h = 0.
Proof.
  intros Hl Hi Hlen Hs Hnone.
  rewrite (loads_last es a Hl Hi Hlen). rewrite Hs.
  unfold allAttempted, withSketch.
  cbn [images sketchOf setIsLoading isLoading heatMap generating].
  split; [reflexivity |]. split; [exact Hnone |]. split; [reflexivity |].
  split.
  - unfold draw. cbn [isLoading heatMap setIsLoading]. now rewrite Hnone.
  - intros x y w h. unfold calculateRectangleScore.
    cbn [heatMap setIsLoading]. now rewrite Hnone.
Qed.


Lemma loading_without_images_witness :
  isLoading (sketchOf (loads allFail initialStudio)) = false
  /\ heatMap (sketchOf (loads allFail initialStudio)) = None
  /\ generating (loads allFail initialStudio) = generating initialStudio
  /\ draw (sketchOf (loads allFail initialStudio))
     = sketchOf (loads allFail initialStudio)
  /\ forall x y w h,
       calculateRectangleScore (sketchOf (loads allFail initialStudio)) x y w h = 0.
Proof.
  apply (loading_without_images allFail initialStudio); vm_compute; reflexivity.
Defined.

(** ** Mouse, frames and keys *)

(** What the handlers of the hill-climbing variant leave alone. *)
Lemma draw_keeps_heat_map (s : sketch) :
  heatMap (draw s) = heatMap s /\ width (draw s) = width s
  /\ height (draw s) = height s.
Proof.
  unfold draw, hillClimbStep.
  destruct (isLoading s); [auto |].
  destruct (heatMap s) eqn:Hm; [| auto].
  destruct (movingRectangle s) as [m |]; [| auto].
  destruct (r_searching m); [| auto].
  destruct (fold_left _ _ _) as [bs bp].
  destruct (bs >? r_score m); cbn; auto.
Qed.

Lemma mousePressed_keeps_heat_map (s : sketch) :
  heatMap (mousePressed s) = heatMap s /\ width (mousePressed s) = width s
  /\ height (mousePressed s) = height s
  /\ permanentRectangles (mousePressed s) = permanentRectangles s.
Proof. unfold mousePressed. destruct (mouseInCanvas s); cbn; auto. Qed.

Lemma keyPressedSearch_keeps (k : keyEvent) (a : studio) :
  heatMap (sketchOf (keyPressedSearch k a)) = heatMap (sketchOf a)
  /\ width (sketchOf (keyPressedSearch k a)) = width (sketchOf a)
  /\ height (sketchOf (keyPressedSearch k a)) = height (sketchOf a)
  /\ movingRectangle (sketchOf (keyPressedSearch k a))
     = movingRectangle (sketchOf a)
  /\ permanentRectangles (sketchOf (keyPressedSearch k a))
     = permanentRectangles (sketchOf a).
Proof. destruct k; cbn; auto. Qed.

Lemma handle_keeps_heat_map (a : studio) (e : uiEvent) :
  heatMap (sketchOf (handle a e)) = heatMap (sketchOf a)
  /\ width (sketchOf (handle a e)) = width (sketchOf a)
  /\ height (sketchOf (handle a e)) = height (sketchOf a).
Proof.
  destruct e as [x y | | | k]; cbn [handle sketchOf withSketch].
  - cbn. auto.
  - destruct (mousePressed_keeps_heat_map (sketchOf a)) as (-> & -> & -> & _).
    auto.
  - apply draw_keeps_heat_map.
  - destruct (keyPressedSearch_keeps k a) as (-> & -> & -> & _). auto.
Qed.

Lemma scoreAt_same_map (s s' : sketch) (r : rect) (p : Q * Q) :
  heatMap s' = heatMap s -> width s' = width s -> height s' = height s ->
  scoreAt s' r p = scoreAt s r p.
Proof.
  intros Hm Hw Hh. unfold scoreAt, calculateRectangleScore.
  now rewrite Hm, Hw, Hh.
Qed.

Lemma candidateOk_same_map (s s' : sketch) (r : rect) (d : Z * Z) :
  width s' = width s -> height s' = height s ->
  candidateOk s' r d = candidateOk s r d.
Proof.
  intros Hw Hh. unfold candidateOk, inBounds. now rewrite Hw, Hh.
Qed.

Lemma localMaximum_same_map (s s' : sketch) (r : rect) :
  heatMap s' = heatMap s -> width s' = width s -> height s' = height s ->
  localMaximum s r -> localMaximum s' r.
Proof.
  intros Hm Hw Hh (Hs & Hsc & Hmax). repeat split; trivial.
  - now rewrite (scoreAt_same_map s s').
  - intros d Hd Hok. rewrite (scoreAt_same_map s s') by trivial.
    apply Hmax; trivial. now rewrite <- (candidateOk_same_map s s').
Qed.

Lemma scoreInvariant_same_map (s s' : sketch) :
  heatMap s' = heatMap s -> width s' = width s -> height s' = height s ->
  movingRectangle s' = movingRectangle s ->
  scoreInvariant s -> scoreInvariant s'.
Proof.
  intros Hm Hw Hh Hmov Hinv m Hm'. rewrite Hmov in Hm'.
  rewrite (Hinv m Hm'). unfold calculateRectangleScore.
  now rewrite Hm, Hw, Hh.
Qed.

Lemma mousePressed_invariant (s : sketch) :
  scoreInvariant s -> scoreInvariant (mousePressed s).
Proof.
  intros Hinv. destruct (mouseInCanvas s) eqn:Hin.
  - now apply mousePressed_starts.
  - unfold mousePressed. now rewrite Hin.
Qed.

(** What a frame does to the saved rectangles: nothing, or it appends the
    rectangle in progress, frozen, which no admitted neighbour beats. *)
Lemma draw_saves (s : sketch) :
  permanentRectangles (draw s) = permanentRectangles s
  \/ exists m,
       movingRectangle s = Some m
       /\ permanentRectangles (draw s)
          = permanentRectangles s
            ++ [mkRect (r_x m) (r_y m) (r_w m) (r_h m) (r_score m) false]
       /\ forall d, In d directions -> candidateOk s m d = true ->
                    scoreAt s m (shift m d) <= r_score m.
Proof.
  destruct (isLoading s) eqn:Hload; [left; unfold draw; now rewrite Hload |].
  destruct (heatMap s) as [pixels |] eqn:Hmap;
    [| left; unfold draw; now rewrite Hload, Hmap].
  destruct (movingRectangle s) as [m |] eqn:Hmov;
    [| left; unfold draw, hillClimbStep; now rewrite Hload, Hmap, Hmov].
  destruct (r_searching m) eqn:Hsearch;
    [| left; unfold draw, hillClimbStep; now rewrite Hload, Hmap, Hmov, Hsearch].
  destruct (draw_searching s pixels m Hload Hmap Hmov Hsearch)
    as [(before & dir & after & _ & _ & _ & _ & _ & ->) | [Hmax ->]].
  - left. reflexivity.
  - right. exists m. repeat split; trivial.
Qed.

Lemma handle_invariant (a : studio) (e : uiEvent) :
  scoreInvariant (sketchOf a) ->
  Forall (localMaximum (sketchOf a)) (permanentRectangles (sketchOf a)) ->
  scoreInvariant (sketchOf (handle a e))
  /\ Forall (localMaximum (sketchOf (handle a e)))
            (permanentRectangles (sketchOf (handle a e))).
Proof.
  intros Hinv Hall.
  destruct (handle_keeps_heat_map a e) as (Hm & Hw & Hh).
  assert (Hold : Forall (localMaximum (sketchOf (handle a e)))
                        (permanentRectangles (sketchOf a))).
  { eapply List.Forall_impl; [| exact Hall].
    intros r. now apply localMaximum_same_map. }
  destruct e as [x y | | | k]; cbn [handle sketchOf withSketch] in *.
  - split; [| exact Hold].
    now apply (scoreInvariant_same_map (sketchOf a)).
  - split; [now apply mousePressed_invariant |].
    destruct (mousePressed_keeps_heat_map (sketchOf a)) as (_ & _ & _ & ->).
    exact Hold.
  - split; [now apply draw_invariant |].
    destruct (draw_saves (sketchOf a)) as [-> | (m & Hmov & -> & Hmax)];
      [exact Hold |].
    apply List.Forall_app. split; [exact Hold |].
    constructor; [| constructor].
    apply (localMaximum_same_map (sketchOf a)); trivial.
    repeat split.
    + exact (Hinv m Hmov).
    + exact Hmax.
  - destruct (keyPressedSearch_keeps k a) as (_ & _ & _ & Hmov & Hperm).
    split.
    + now apply (scoreInvariant_same_map (sketchOf a)).
    + rewrite Hperm. exact Hold.
Qed.

(** X13: in the hill-climbing variant, under any sequence of mouse moves,
    clicks, frames and keys on a fixed heat map, every saved rectangle is
    frozen, carries the score of its position, and has no admitted
    neighbour that scores more. *)
Theorem saved_rectangles_are_local_maxima (es : list uiEvent) (a : studio) :
  scoreInvariant (sketchOf a) ->
  Forall (localMaximum (sketchOf a)) (permanentRectangles (sketchOf a)) ->
  Forall (localMaximum (sketchOf (handleAll es a)))
         (permanentRectangles (sketchOf (handleAll es a)))
  /\ heatMap (sketchOf (handleAll es a)) = heatMap (sketchOf a).
Proof.
  unfold handleAll. revert a.
  induction es as [| e es IH]; intros a Hinv Hall; simpl.
  - now split.
  - destruct (handle_invariant a e Hinv Hall) as [Hinv' Hall'].
    destruct (IH _ Hinv' Hall') as [Hres Hm]. split; [exact Hres |].
    rewrite Hm. apply handle_keeps_heat_map.
Qed.

Lemma handle_appends (a : studio) (e : uiEvent) :
  exists more,
    permanentRectangles (sketchOf (handle a e))
    = permanentRectangles (sketchOf a) ++ more.
Proof.
  destruct e as [x y | | | k]; cbn [handle sketchOf withSketch].
  - exists []. cbn. now rewrite app_nil_r.
  - exists []. destruct (mousePressed_keeps_heat_map (sketchOf a)) as (_ & _ & _ & ->).
    now rewrite app_nil_r.
  - destruct (draw_saves (sketchOf a)) as [-> | (m & _ & -> & _)].
    + exists []. now rewrite app_nil_r.
    + eexists. reflexivity.
  - exists []. destruct (keyPressedSearch_keeps k a) as (_ & _ & _ & _ & ->).
    now rewrite app_nil_r.
Qed.

(** X14: the saved rectangles are only ever appended to: after any
    sequence of mouse moves, clicks, frames and keys the earlier list is a
    prefix of the later one. *)
Theorem saved_rectangles_are_append_only (es : list uiEvent) (a : studio) :
  exists more,
    permanentRectangles (sketchOf (handleAll es a))
    = permanentRectangles (sketchOf a) ++ more.
Proof.
  unfold handleAll. revert a.
  induction es as [| e es IH]; intros a; simpl.
  - exists []. now rewrite app_nil_r.
  - destruct (IH (handle a e)) as (more & ->).
    destruct (handle_appends a e) as (more' & ->).
    exists (more' ++ more). now rewrite app_assoc.
Qed.

Lemma saved_rectangles_are_local_maxima_witness :
  Forall (localMaximum
            (sketchOf (handleAll [Frame; Frame; KeyPressed KEY_PLUS] peakStudio)))
         (permanentRectangles
            (sketchOf (handleAll [Frame; Frame; KeyPressed KEY_PLUS] peakStudio)))
  /\ heatMap (sketchOf (handleAll [Frame; Frame; KeyPressed KEY_PLUS] peakStudio))
     = heatMap (sketchOf peakStudio).
Proof.
  apply (saved_rectangles_are_local_maxima
           [Frame; Frame; KeyPressed KEY_PLUS] peakStudio).
  - intros m [= <-]. reflexivity.
  - constructor.
Defined.

(** ** Hover information, loading bar and percentages *)

Lemma hours_table :
  forallb (fun c =>
             let hours := daylightHours (Some (greyOfCount c)) in
             Num.gt hours (Num.sub (Num.of_Z (Z.of_nat c)) quarter)
             && Num.gt (Num.add (Num.of_Z (Z.of_nat c)) quarter) hours)
          (seq 0 (S totalImages)) = true.
Proof. vm_compute. reflexivity. Qed.

(** X15: with at most 90 images, the hours that the hover box computes
    from the grey level of a pixel of the heat map are within a quarter of
    the number of images in which the pixel is sunny. *)
Theorem hover_recovers_count
    (images : list p5Image) (W H : nat) (t : Num.number) (pixels : list Z)
    (x y : nat) :
  (length images <= totalImages)%nat ->
  (x < W)%nat -> (y < H)%nat -> length pixels = (W * H * 4)%nat ->
  let count := Num.of_Z (Z.of_nat (sunnyCount images t x y)) in
  let hours :=
    daylightHours (cell (generateHeatMap images W H t pixels) W x y) in
  Num.gt hours (Num.sub count quarter) = true
  /\ Num.gt (Num.add count quarter) hours = true.
Proof.
  intros HN Hx Hy Hlen. cbv zeta.
  rewrite generateHeatMap_cell by assumption.
  apply andb_true_iff.
  refine (proj1 (forallb_forall _ _) hours_table (sunnyCount images t x y) _).
  apply in_seq. pose proof (sunnyCount_le_length images t x y). lia.
Qed.

Lemma hover_recovers_count_witness :
  let count := Num.of_Z (Z.of_nat (sunnyCount [grey210] (Num.of_Z 200) 0 0)) in
  let hours :=
    daylightHours
      (cell (generateHeatMap [grey210] 1 1 (Num.of_Z 200) (createImage 1 1))
            1 0 0) in
  Num.gt hours (Num.sub count quarter) = true
  /\ Num.gt (Num.add count quarter) hours = true.
Proof.
  apply (hover_recovers_count [grey210] 1 1 (Num.of_Z 200) (createImage 1 1) 0 0).
  - unfold totalImages. simpl. lia.
  - lia.
  - lia.
  - reflexivity.
Defined.

Lemma hover_table :
  forallb (fun g =>
             let hours := daylightHours (Some (Z.of_nat g)) in
             let percentage := hoverPercentage (Some (Z.of_nat g)) in
             Num.le (Num.of_Z 0) hours
             && Num.le hours (Num.of_Z (Z.of_nat totalImages))
             && Num.le (Num.of_Z 0) percentage
             && Num.le percentage (Num.of_Z 100))
          (seq 0 256) = true.
Proof. vm_compute. reflexivity. Qed.

(** X16: for every byte under the mouse the hover box computes between 0
    and 90 hours and between 0 and 100 percent. *)
Theorem hover_values_in_range (g : Z) :
  0 <= g <= 255 ->
  Num.le (Num.of_Z 0) (daylightHours (Some g)) = true
  /\ Num.le (daylightHours (Some g)) (Num.of_Z (Z.of_nat totalImages)) = true
  /\ Num.le (Num.of_Z 0) (hoverPercentage (Some g)) = true
  /\ Num.le (hoverPercentage (Some g)) (Num.of_Z 100) = true.
Proof.
  intros Hg.
  assert (Hin : In (Z.to_nat g) (seq 0 256)) by (apply in_seq; lia).
  pose proof (proj1 (forallb_forall _ _) hover_table (Z.to_nat g) Hin) as Ht.
  cbv beta zeta in Ht. rewrite Z2Nat.id in Ht by lia.
  rewrite !andb_true_iff in Ht. tauto.
Qed.

Lemma hover_values_in_range_witness :
  Num.le (Num.of_Z 0) (daylightHours (Some 128)) = true
  /\ Num.le (daylightHours (Some 128)) (Num.of_Z (Z.of_nat totalImages)) = true
  /\ Num.le (Num.of_Z 0) (hoverPercentage (Some 128)) = true
  /\ Num.le (hoverPercentage (Some 128)) (Num.of_Z 100) = true.
Proof. apply (hover_values_in_range 128). lia. Defined.

Lemma Qltb_lt (a b : Q) : Qltb a b = true <-> (a < b)%Q.
Proof.
  unfold Qltb. rewrite negb_true_iff. split.
  - intros Hq. apply Qnot_le_lt. intros Hc. apply Qle_bool_iff in Hc. congruence.
  - intros Hq. destruct (Qle_bool b a) eqn:E; [| reflexivity].
    apply Qle_bool_iff in E. exfalso. exact (Qlt_not_le _ _ Hq E).
Qed.

Lemma Qltb_ge (a b : Q) : Qltb a b = false <-> (b <= a)%Q.
Proof.
  unfold Qltb. rewrite negb_false_iff. apply Qle_bool_iff.
Qed.

Lemma mouseInCanvas_bounds (s : sketch) :
  mouseInCanvas s = true ->
  (0 <= mouseX s /\ mouseX s < inject_Z (Z.of_nat (width s))
   /\ 0 <= mouseY s /\ mouseY s < inject_Z (Z.of_nat (height s)))%Q.
Proof.
  unfold mouseInCanvas. rewrite !andb_true_iff, !Qltb_lt.
  intros [[[Hx Hx'] Hy] Hy']. apply Qle_bool_iff in Hx, Hy. tauto.
Qed.

Lemma inject_nat_le (n : Z) (m : nat) :
  n <= Z.of_nat m -> (inject_Z n <= inject_Z (Z.of_nat m))%Q.
Proof. intros Hn. now rewrite <- Zle_Qle. Qed.

(** X17: with the mouse in the canvas, the hover box never passes the
    right edge of the canvas and never starts above row 5; it stays right
    of the left edge on a canvas at least 350 wide and above the bottom
    edge on a canvas at least 43 high. *)
Theorem hover_box_in_canvas (s : sketch) :
  mouseInCanvas s = true ->
  let boxX := fst (hoverBox s) in
  let boxY := snd (hoverBox s) in
  (boxX + boxWidth <= inject_Z (Z.of_nat (width s))
   /\ 5 <= boxY
   /\ ((350 <= width s)%nat -> 0 <= boxX)
   /\ ((43 <= height s)%nat -> boxY + boxHeight <= inject_Z (Z.of_nat (height s))))%Q.
Proof.
  intros Hm. apply mouseInCanvas_bounds in Hm.
  destruct Hm as (Hx & Hx' & Hy & Hy').
  unfold hoverBox, boxWidth, boxHeight in *. cbv zeta. cbn [fst snd].
  assert (HW : ((350 <= width s)%nat ->
                (350 <= inject_Z (Z.of_nat (width s)))%Q)).
  { intros Hw. apply (inject_nat_le 350). lia. }
  assert (HH : ((43 <= height s)%nat ->
                (43 <= inject_Z (Z.of_nat (height s)))%Q)).
  { intros Hh. apply (inject_nat_le 43). lia. }
  set (W := inject_Z (Z.of_nat (width s))) in *.
  set (H := inject_Z (Z.of_nat (height s))) in *.
  destruct (Qltb W (mouseX s + 15 + 160)) eqn:Ex;
    [apply Qltb_lt in Ex | apply Qltb_ge in Ex];
    (destruct (Qltb (mouseY s - 40) 5) eqn:Ey;
     [apply Qltb_lt in Ey | apply Qltb_ge in Ey]);
    (split; [lra | split; [lra | split; intros Hw;
       [specialize (HW Hw) | specialize (HH Hw)]; lra]]).
Qed.

Lemma hover_box_in_canvas_witness :
  let boxX := fst (hoverBox (sketchOf initialStudio)) in
  let boxY := snd (hoverBox (sketchOf initialStudio)) in
  (boxX + boxWidth <= inject_Z (Z.of_nat (width (sketchOf initialStudio)))
   /\ 5 <= boxY
   /\ ((350 <= width (sketchOf initialStudio))%nat -> 0 <= boxX)
   /\ ((43 <= height (sketchOf initialStudio))%nat ->
       boxY + boxHeight <= inject_Z (Z.of_nat (height (sketchOf initialStudio)))))%Q.
Proof. apply (hover_box_in_canvas (sketchOf initialStudio)). reflexivity. Defined.

Lemma loading_table :
  forallb (fun l =>
             match loadingText l with
             | Some z => z =? 100 * Z.of_nat l / Z.of_nat totalImages
             | None => false
             end)
          (seq 0 (S totalImages)) = true.
Proof. vm_compute. reflexivity. Qed.

(** X18: while at most 90 loads have succeeded, the loading text shows
    the integer part of the exact percentage [100 * loaded / 90]: the
    rounding of the division and of the product never moves it across an
    integer. *)
Theorem loading_text_is_exact (loaded : nat) :
  (loaded <= totalImages)%nat ->
  loadingText loaded = Some (100 * Z.of_nat loaded / Z.of_nat totalImages).
Proof.
  intros Hl.
  assert (Hin : In loaded (seq 0 (S totalImages))) by (apply in_seq; lia).
  pose proof (proj1 (forallb_forall _ _) loading_table loaded Hin) as Ht.
  cbv beta in Ht.
  destruct (loadingText loaded) as [z |]; [| discriminate].
  apply Z.eqb_eq in Ht. now subst.
Qed.

Lemma loading_text_is_exact_witness :
  loadingText 89 = Some (100 * Z.of_nat 89 / Z.of_nat totalImages).
Proof. apply (loading_text_is_exact 89). unfold totalImages. lia. Defined.

(** ** Percentages of rectangles *)

Lemma sumZ_bounds {A : Type} (f : A -> Z) (c : Z) (l : list A) :
  (forall a, In a l -> 0 <= f a <= c) ->
  0 <= sumZ (List.map f l) <= c * Z.of_nat (length l).
Proof.
  induction l as [| a l IH]; intros Hf.
  - simpl. lia.
  - assert (Ha : 0 <= f a <= c) by (apply Hf; now left).
    assert (Hl : 0 <= sumZ (List.map f l) <= c * Z.of_nat (length l)).
    { apply IH. intros b Hb. apply Hf. now right. }
    cbn [List.map sumZ fold_right length]. fold (sumZ (List.map f l)). lia.
Qed.

Lemma sumZ_constant {A : Type} (f : A -> Z) (c : Z) (l : list A) :
  (forall a, In a l -> f a = c) ->
  sumZ (List.map f l) = c * Z.of_nat (length l).
Proof.
  induction l as [| a l IH]; intros Hf.
  - simpl. lia.
  - cbn [List.map sumZ fold_right length]. fold (sumZ (List.map f l)).
    rewrite IH by (intros b Hb; apply Hf; now right).
    rewrite (Hf a) by now left. lia.
Qed.

Lemma gridValue_byte (pixels : list Z) (W H : nat) (i j : Z) :
  bytes pixels -> 0 <= gridValue pixels W H i j <= 255.
Proof.
  intros Hb. unfold gridValue, cell.
  destruct ((0 <=? i) && (i <? Z.of_nat W) && (0 <=? j) && (j <? Z.of_nat H));
    [| lia].
  destruct (pixels !! ((Z.to_nat i + Z.to_nat j * W) * 4)%nat) as [v |] eqn:E;
    simpl; [| lia].
  apply list_elem_of_lookup_2, list_elem_of_In in E.
  exact (proj1 (List.Forall_forall _ _) Hb v E).
Qed.

Lemma rectSum_bounds (pixels : list Z) (W H : nat) (lox hix loy hiy : Z) :
  bytes pixels ->
  0 <= rectSum pixels W H lox hix loy hiy
  <= 255 * (Z.max 0 (hix - lox) * Z.max 0 (hiy - loy)).
Proof.
  intros Hb. unfold rectSum.
  pose proof (sumZ_bounds
                (fun i => sumZ (List.map (gridValue pixels W H i)
                                         (seqZ loy (hiy - loy))))
                (255 * Z.max 0 (hiy - loy))
                (seqZ lox (hix - lox))) as Hs.
  rewrite length_seqZ in Hs.
  assert (Hin : forall i, In i (seqZ lox (hix - lox)) ->
                0 <= sumZ (List.map (gridValue pixels W H i)
                                    (seqZ loy (hiy - loy)))
                <= 255 * Z.max 0 (hiy - loy)).
  { intros i _.
    pose proof (sumZ_bounds (gridValue pixels W H i) 255
                            (seqZ loy (hiy - loy))) as Hr.
    rewrite length_seqZ in Hr.
    assert (Hg : forall j, In j (seqZ loy (hiy - loy)) ->
                 0 <= gridValue pixels W H i j <= 255)
      by (intros j _; now apply gridValue_byte).
    specialize (Hr Hg). lia. }
  specialize (Hs Hin). nia.
Qed.

Lemma gridValue_uniform (pixels : list Z) (W H : nat) (g i j : Z) :
  uniform pixels W H g ->
  0 <= i < Z.of_nat W -> 0 <= j < Z.of_nat H ->
  gridValue pixels W H i j = g.
Proof.
  intros Hu Hi Hj. unfold gridValue.
  replace ((0 <=? i) && (i <? Z.of_nat W) && (0 <=? j) && (j <? Z.of_nat H))
    with true.
  - rewrite (Hu (Z.to_nat i) (Z.to_nat j)) by lia. reflexivity.
  - symmetry. rewrite !andb_true_iff, !Z.leb_le, !Z.ltb_lt. lia.
Qed.

Lemma rectSum_uniform (pixels : list Z) (W H : nat) (g lox hix loy hiy : Z) :
  uniform pixels W H g ->
  0 <= lox -> hix <= Z.of_nat W -> 0 <= loy -> hiy <= Z.of_nat H ->
  rectSum pixels W H lox hix loy hiy
  = g * (Z.max 0 (hix - lox) * Z.max 0 (hiy - loy)).
Proof.
  intros Hu Hlx Hhx Hly Hhy. unfold rectSum.
  rewrite (sumZ_constant _ (g * Z.max 0 (hiy - loy))).
  - rewrite length_seqZ. lia.
  - intros i Hi. apply list_elem_of_In, elem_of_seqZ in Hi.
    rewrite (sumZ_constant _ g).
    + rewrite length_seqZ. lia.
    + intros j Hj. apply list_elem_of_In, elem_of_seqZ in Hj.
      apply gridValue_uniform; trivial; lia.
Qed.

Lemma columnsOf_bounds (x w : Q) :
  (0 < w)%Q -> 0 <= columnsOf x w /\ (inject_Z (columnsOf x w) < w + 1)%Q.
Proof.
  intros Hw. unfold columnsOf.
  assert (Hle : Qfloor (x - w / 2) <= Qfloor (x + w / 2)).
  { apply Qfloor_resp_le. change (w / 2)%Q with (w * (1 # 2))%Q. lra. }
  split; [lia |].
  unfold Z.sub. rewrite inject_Z_plus, inject_Z_opp.
  pose proof (Qfloor_le (x + w / 2)) as Hhi.
  pose proof (Qlt_floor (x - w / 2)) as Hlo.
  rewrite inject_Z_plus in Hlo. change (inject_Z 1) with 1%Q in Hlo.
  set (lo := Qfloor (x - w / 2)) in *.
  set (hi := Qfloor (x + w / 2)) in *.
  change (w / 2)%Q with (w * (1 # 2))%Q in *. lra.
Qed.

Lemma columnsOf_integer (x w : Q) (a : Z) :
  (w == inject_Z a)%Q -> columnsOf x w = a.
Proof.
  intros Hw. unfold columnsOf.
  rewrite (Qfloor_comp (x + w / 2) (x - w / 2 + inject_Z a)).
  - rewrite Qfloor_add_Z. lia.
  - rewrite <- Hw. field.
Qed.

Lemma percentage_factor (score : Z) (w h : Q) :
  (0 < w)%Q -> (0 < h)%Q ->
  (daylightPercentage score w h
   == inject_Z score * (100 / (255 * (w * h))))%Q.
Proof.
  intros Hw Hh. unfold daylightPercentage, p5_mapQ.
  assert (Hwh : (0 < w * h)%Q) by nra.
  field. lra.
Qed.

Lemma factor_positive (w h : Q) :
  (0 < w)%Q -> (0 < h)%Q -> (0 < 100 / (255 * (w * h)))%Q.
Proof.
  intros Hw Hh. assert (Hwh : (0 < w * h)%Q) by nra.
  apply Qlt_shift_div_l; lra.
Qed.

Lemma calculateRectangleScore_bounds (s : sketch) (pixels : list Z) (x y w h : Q) :
  heatMap s = Some pixels -> bytes pixels -> (0 < w)%Q -> (0 < h)%Q ->
  0 <= calculateRectangleScore s x y w h
  <= 255 * (columnsOf x w * columnsOf y h).
Proof.
  intros Hm Hb Hw Hh. unfold calculateRectangleScore. rewrite Hm.
  rewrite rectangleScoreOn_sum. unfold specScore.
  pose proof (rectSum_bounds pixels (width s) (height s)
                (Qfloor (x - w / 2)) (Qfloor (x + w / 2))
                (Qfloor (y - h / 2)) (Qfloor (y + h / 2)) Hb) as Hr.
  destruct (columnsOf_bounds x w Hw) as [Hc _].
  destruct (columnsOf_bounds y h Hh) as [Hd _].
  unfold columnsOf in *. rewrite !Z.max_r in Hr by lia. exact Hr.
Qed.





(** ** The best hovered rectangle *)

Lemma trackBest_hover (s : sketch) (best : option rect) :
  highestOf best
            match hoverScore s with Some z => [z] | None => [] end
            (trackBest s best).
Proof.
  unfold trackBest, hoverScore.
  assert (Hsame : highestOf best [] best).
  { unfold highestOf. destruct best as [b |].
    - split; [now left |]. split; [constructor |].
      intros b0 [= ->]. lia.
    - now split. }
  destruct (isLoading s); [exact Hsame |].
  destruct (heatMap s) as [pixels |] eqn:Hm; [| exact Hsame].
  destruct (mouseInCanvas s); [| exact Hsame].
  cbv zeta.
  set (score := calculateRectangleScore s (mouseX s)
                  (mouseY s + (- rectHeight s / 2 - 8))%Q
                  (rectWidth s) (rectHeight s)).
  destruct best as [b |].
  - destruct (r_score b <? score) eqn:E.
    + apply Z.ltb_lt in E. unfold highestOf. cbn [r_score].
      split; [right; now left |]. split.
      * constructor; [lia | constructor].
      * intros b0 [= ->]. lia.
    + apply Z.ltb_ge in E. unfold highestOf.
      split; [now left |]. split.
      * constructor; [exact E | constructor].
      * intros b0 [= ->]. lia.
  - unfold highestOf. cbn [r_score].
    split; [right; now left |]. split.
    + constructor; [lia | constructor].
    + intros b0 [=].
Qed.

Lemma highestOf_app (start mid best : option rect) (pre rest : list Z) :
  highestOf start pre mid -> highestOf mid rest best ->
  highestOf start (pre ++ rest) best.
Proof.
  unfold highestOf. intros Hpre Hrest.
  destruct best as [b |].
  - destruct Hrest as (Hfrom & Hall & Hge).
    destruct mid as [m |].
    + destruct Hpre as (Hfrom' & Hall' & Hge').
      pose proof (Hge m eq_refl) as Hmb.
      split; [| split].
      * destruct Hfrom as [[= ->] | Hin].
        -- destruct Hfrom' as [-> | Hin']; [now left |].
           right. apply in_or_app. now left.
        -- right. apply in_or_app. now right.
      * apply List.Forall_app. split; [| exact Hall].
        eapply List.Forall_impl; [| exact Hall'].
        intros z Hz. simpl in Hz. lia.
      * intros b0 Hb0. specialize (Hge' b0 Hb0). lia.
    + destruct Hpre as [-> ->]. simpl.
      split; [| split; [exact Hall |]].
      * destruct Hfrom as [[=] | Hin]. now right.
      * intros b0 [=].
  - destruct Hrest as [-> ->]. destruct Hpre as [-> ->]. now split.
Qed.

Lemma bestAfter_highest (es : list uiEvent) (a : studio) (best : option rect) :
  highestOf best (hoverScores es a) (bestAfter es a best).
Proof.
  revert a best. induction es as [| e es IH]; intros a best.
  - simpl. unfold highestOf. destruct best as [b |].
    + split; [now left |]. split; [constructor |]. intros b0 [= ->]. lia.
    + now split.
  - cbn [hoverScores bestAfter].
    eapply highestOf_app; [| apply IH].
    destruct e as [x y | | | k]; try apply trackBest_hover;
      unfold highestOf; (destruct best as [b |];
        [split; [now left |]; split; [constructor |]; intros b0 [= ->]; lia
        | now split]).
Qed.

(** X21: in the hill-climbing variant, after any sequence of mouse moves,
    clicks, frames and keys, the best hovered rectangle is unset exactly
    when no frame has computed a score for the rectangle above the mouse,
    and otherwise carries the highest of the scores that the frames have
    computed. *)
Theorem best_rectangle_is_highest_hover (es : list uiEvent) (a : studio) :
  match bestAfter es a None with
  | None => hoverScores es a = []
  | Some best =>
      In (r_score best) (hoverScores es a)
      /\ Forall (fun z => z <= r_score best) (hoverScores es a)
  end.
Proof.
  pose proof (bestAfter_highest es a None) as Hh. unfold highestOf in Hh.
  destruct (bestAfter es a None) as [b |].
  - destruct Hh as ([[=] | Hin] & Hall & _). now split.
  - now destruct Hh.
Qed.
